(** * GroupsService: the group cache and the batched contract update

    A shallow embedding of [apps/api/src/app/groups/groups.service.ts].

    The service keeps, next to the persisted group records, one cached
    Merkle tree per group name ([cachedGroups]) and a list of groups whose
    root changed and which are still to be sent to the contract
    ([updatedGroups]).

    What lies outside the service file is kept behind an interface
    ([Collaborators]): the two hash functions of the tree package, ethers'
    [id], JavaScript's [BigInt] on strings and the invites service.  The
    tree package itself ([@semaphore-protocol/group]) is modelled by what
    its operations compute, over the abstract node hash. *)

From Stdlib Require Import ZArith List Ascii String Lia Bool.
From stdpp Require Import gmap strings list fin_maps pretty.

Set Default Proof Using "Type".

(** ** Collaborators *)

Class Collaborators := {
  (** node hash of the tree ([poseidon2] of the tree package) *)
  poseidon2 : Z -> Z -> Z;
  (** the tree package's [hash], which turns a group id into the zero leaf *)
  hash : Z -> Z;
  (** [BigInt(id(name))]: ethers' [id] of a string, read as an integer *)
  id : string -> Z;
  (** [BigInt(member)] on a string; [None] stands for the SyntaxError *)
  BigInt : string -> option Z;
  (** state of the invites service *)
  Invites : Type;
  (** [invitesService.redeemInvite(inviteCode, groupName)]: the rejection
      reason, or the invites after the code has been consumed *)
  redeemInvite : string -> string -> Invites -> string + Invites
}.

(** ** Data *)

(** [entities/group.entity]: a persisted group. *)
Record Group := {
  name : string;
  description : string;
  treeDepth : nat;
  tag : string;
  admin : string;
  members : list string
}.

Module CreateGroupDto.
Record t := { name : string; description : string; treeDepth : nat; tag : string }.
End CreateGroupDto.

Module UpdateGroupDto.
Record t := { description : string; treeDepth : nat; tag : string }.
End UpdateGroupDto.

Module AddMemberDto.
Record t := { inviteCode : string }.
End AddMemberDto.

(** [Group as CachedGroup] of the tree package: the constructor's
    arguments and the leaves inserted so far.  The nodes above the leaves
    are a function of these (see [root]). *)
Record CachedGroup := {
  cg_id : Z;
  cg_depth : nat;
  cg_members : list Z
}.

(** [types/MerkleProof]. *)
Record MerkleProof := {
  mp_root : Z;
  mp_leaf : Z;
  mp_siblings : list Z;
  mp_pathIndices : list nat
}.

Module zkGroups.
(** An entry of [updatedGroups]. *)
Record Group := { id : Z; fingerprint : Z }.
(** What [await zkGroups.updateGroups(...)] resolves to. *)
Record Tx := { status : bool; events : list Z }.
End zkGroups.

Inductive Exception :=
| BadRequestException (message : string)
| NotFoundException (message : string)
| UnauthorizedException (message : string)
| TypeError (message : string)
| SyntaxError (message : string)
| InviteError (reason : string)
| QueryFailedError (message : string)
| TreeError (message : string).

Inductive LogEntry :=
| Log (message : string)
| Error (message : string).

(** ** The tree package *)

Section Tree.
Context `{Collaborators}.

(** One level up: the nodes of a level are hashed in pairs, a missing
    right sibling being the zero of that level. *)
Fixpoint hashLevel (zero : Z) (nodes : list Z) : list Z :=
  match nodes with
  | [] => []
  | [a] => [poseidon2 a zero]
  | a :: b :: rest => poseidon2 a b :: hashLevel zero rest
  end.

Fixpoint rootFrom (depth : nat) (zero : Z) (nodes : list Z) : Z :=
  match depth with
  | O => nth 0 nodes zero
  | S d => rootFrom d (poseidon2 zero zero) (hashLevel zero nodes)
  end.

(** [createProof(index)]: at each level the sibling of the node on the
    path and the position (0 left, 1 right) of that node. *)
Fixpoint createProof (depth : nat) (zero : Z) (nodes : list Z) (index : nat)
  : list Z * list nat :=
  match depth with
  | O => ([], [])
  | S d =>
      let position := (index mod 2)%nat in
      let sibling :=
        nth (if (position =? 0)%nat then index + 1 else index - 1)%nat nodes zero in
      let rest := createProof d (poseidon2 zero zero) (hashLevel zero nodes) (index / 2)%nat in
      (sibling :: fst rest, position :: snd rest)
  end.

(** The root a verifier recomputes from a leaf and its proof. *)
Fixpoint recompute (node : Z) (siblings : list Z) (pathIndices : list nat) : Z :=
  match siblings, pathIndices with
  | s :: ss, p :: ps =>
      recompute (if (p =? 0)%nat then poseidon2 node s else poseidon2 s node) ss ps
  | _, _ => node
  end.

Definition recomputedRoot (p : MerkleProof) : Z :=
  recompute (mp_leaf p) (mp_siblings p) (mp_pathIndices p).

(** [Array.prototype.indexOf] on the leaves: first position, or -1. *)
Fixpoint indexOfFrom (leaf : Z) (leaves : list Z) (i : Z) : Z :=
  match leaves with
  | [] => (-1)%Z
  | x :: rest => if (x =? leaf)%Z then i else indexOfFrom leaf rest (i + 1)%Z
  end.

(** [new CachedGroup(id, treeDepth = 20)]: the parameters are positional,
    and the depth takes its default when the second argument is absent. *)
Definition CachedGroup_new (id : Z) (treeDepth : option nat) : CachedGroup :=
  {| cg_id := id; cg_depth := default 20%nat treeDepth; cg_members := [] |}.

Definition capacity (g : CachedGroup) : Z := (2 ^ Z.of_nat (cg_depth g))%Z.

(** [merkleTree.insert(leaf)]: the leaf is appended; a full tree throws. *)
Definition insert (g : CachedGroup) (leaf : Z) : Exception + CachedGroup :=
  if (Z.of_nat (length (cg_members g)) <? capacity g)%Z
  then inr {| cg_id := cg_id g; cg_depth := cg_depth g;
              cg_members := cg_members g ++ [leaf] |}
  else inl (TreeError "The tree is full").

(** [group.addMember(member)]: [insert(BigInt(member))]. *)
Definition CachedGroup_addMember (g : CachedGroup) (member : string)
  : Exception + CachedGroup :=
  match BigInt member with
  | None => inl (SyntaxError member)
  | Some leaf => insert g leaf
  end.

(** [group.addMembers(members)]: [addMember] on each, in order. *)
Fixpoint CachedGroup_addMembers (g : CachedGroup) (ms : list string)
  : Exception + CachedGroup :=
  match ms with
  | [] => inr g
  | m :: rest =>
      match CachedGroup_addMember g m with
      | inl e => inl e
      | inr g' => CachedGroup_addMembers g' rest
      end
  end.

Definition CachedGroup_indexOf (g : CachedGroup) (member : Z) : Z :=
  indexOfFrom member (cg_members g) 0.

Definition root (g : CachedGroup) : Z :=
  rootFrom (cg_depth g) (hash (cg_id g)) (cg_members g).

(** [group.generateMerkleProof(index)]; an index outside the leaves throws. *)
Definition CachedGroup_generateMerkleProof (g : CachedGroup) (index : Z)
  : Exception + MerkleProof :=
  if ((0 <=? index) && (index <? Z.of_nat (length (cg_members g))))%Z
  then
    let i := Z.to_nat index in
    let p := createProof (cg_depth g) (hash (cg_id g)) (cg_members g) i in
    inr {| mp_root := root g;
           mp_leaf := nth i (cg_members g) (hash (cg_id g));
           mp_siblings := fst p;
           mp_pathIndices := snd p |}
  else inl (TreeError "The leaf does not exist in this tree").
End Tree.

(** ** The service *)

Local Open Scope string_scope.
Local Open Scope list_scope.

(** The fields of [GroupsService] and what its collaborators hold.
    [ledger] lists the batches handed to [zkGroups.updateGroups], oldest
    first; [pending] counts the calls of [updateContractGroups] that are
    suspended at their [await]. *)
Record State `{Collaborators} := {
  groupRepository : list Group;
  invitesService : Invites;
  schedulerRegistry : list string;
  cachedGroups : gmap string CachedGroup;
  updatedGroups : list zkGroups.Group;
  ledger : list (list zkGroups.Group);
  pending : nat;
  logger : list LogEntry
}.

Section Service.
Context `{Collaborators}.

Definition set_groupRepository (v : list Group) (st : State) : State :=
  {| groupRepository := v; invitesService := invitesService st;
     schedulerRegistry := schedulerRegistry st; cachedGroups := cachedGroups st;
     updatedGroups := updatedGroups st; ledger := ledger st;
     pending := pending st; logger := logger st |}.

Definition set_invitesService (v : Invites) (st : State) : State :=
  {| groupRepository := groupRepository st; invitesService := v;
     schedulerRegistry := schedulerRegistry st; cachedGroups := cachedGroups st;
     updatedGroups := updatedGroups st; ledger := ledger st;
     pending := pending st; logger := logger st |}.

Definition set_cachedGroups (v : gmap string CachedGroup) (st : State) : State :=
  {| groupRepository := groupRepository st; invitesService := invitesService st;
     schedulerRegistry := schedulerRegistry st; cachedGroups := v;
     updatedGroups := updatedGroups st; ledger := ledger st;
     pending := pending st; logger := logger st |}.

Definition set_updatedGroups (v : list zkGroups.Group) (st : State) : State :=
  {| groupRepository := groupRepository st; invitesService := invitesService st;
     schedulerRegistry := schedulerRegistry st; cachedGroups := cachedGroups st;
     updatedGroups := v; ledger := ledger st;
     pending := pending st; logger := logger st |}.

Definition set_ledger (v : list (list zkGroups.Group)) (n : nat) (st : State) : State :=
  {| groupRepository := groupRepository st; invitesService := invitesService st;
     schedulerRegistry := schedulerRegistry st; cachedGroups := cachedGroups st;
     updatedGroups := updatedGroups st; ledger := v;
     pending := n; logger := logger st |}.

Definition Logger_log (message : string) (st : State) : State :=
  {| groupRepository := groupRepository st; invitesService := invitesService st;
     schedulerRegistry := schedulerRegistry st; cachedGroups := cachedGroups st;
     updatedGroups := updatedGroups st; ledger := ledger st;
     pending := pending st; logger := logger st ++ [Log message] |}.

Definition Logger_error (message : string) (st : State) : State :=
  {| groupRepository := groupRepository st; invitesService := invitesService st;
     schedulerRegistry := schedulerRegistry st; cachedGroups := cachedGroups st;
     updatedGroups := updatedGroups st; ledger := ledger st;
     pending := pending st; logger := logger st ++ [Error message] |}.

(** *** Service calls: state and exceptions

    A call either returns or throws, and leaves a state behind in both
    cases.  Every [await] of a method is run to its end inside the call;
    the one call that is not awaited, [this.updateContractGroups()], is
    split at its [await] below. *)
Definition M (A : Type) : Type := State -> (Exception + A) * State.

#[export] Instance M_ret : MRet M := λ A a st, (inr a, st).
#[export] Instance M_bind : MBind M := λ A B f m st,
  match m st with
  | (inl e, st') => (inl e, st')
  | (inr a, st') => f a st'
  end.

Definition throw {A} (e : Exception) : M A := λ st, (inl e, st).
Definition gets {A} (f : State -> A) : M A := λ st, (inr (f st), st).
Definition modify (f : State -> State) : M unit := λ st, (inr tt, f st).
Definition liftE {A} (r : Exception + A) : M A := λ st, (r, st).

(** *** The repository *)

(** Modelled from the spec: the record store ([typeorm]'s repository over
    the [Group] entity, whose declaration is not part of the service
    file).  Records are persisted with a uniqueness constraint on
    [name]; [find] returns the rows, [findOneBy] the row of a name. *)
Definition Repository_find : M (list Group) := gets groupRepository.

Definition findRow (groupName : string) (rows : list Group) : option Group :=
  List.find (λ g, String.eqb (name g) groupName) rows.

Definition Repository_findOneBy (groupName : string) : M (option Group) :=
  gets (λ st, findRow groupName (groupRepository st)).

(** Modelled from the spec: [save] of an entity made by [create], an
    insertion, which the uniqueness constraint on [name] rejects when the
    name is taken. *)
Definition Repository_insert (group : Group) : M Group := λ st,
  match findRow (name group) (groupRepository st) with
  | Some _ => (inl (QueryFailedError "UNIQUE constraint failed: groups.name"), st)
  | None => (inr group, set_groupRepository (groupRepository st ++ [group]) st)
  end.

(** Modelled from the spec: [save] of an entity loaded from the store
    rewrites its row. *)
Definition updateRow (group : Group) (rows : list Group) : list Group :=
  (λ g, if String.eqb (name g) (name group) then group else g) <$> rows.

Definition Repository_update (group : Group) : M Group := λ st,
  (inr group, set_groupRepository (updateRow group (groupRepository st)) st).

(** *** Contract update *)

(** [updateContractGroups] until its [await]: the length test and the
    call of [zkGroups.updateGroups(this.updatedGroups)].  Modelled from
    the spec: the ledger client takes the batch as it is when called. *)
Definition updateContractGroups_call (st : State) : State :=
  match updatedGroups st with
  | [] => st
  | _ :: _ => set_ledger (ledger st ++ [updatedGroups st]) (S (pending st)) st
  end.

(** [updateContractGroups] from its [await] on, once the transaction
    has been settled with [tx]. *)
Definition updateContractGroups_resume (tx : zkGroups.Tx) (st : State) : State :=
  let st := set_ledger (ledger st) (Nat.pred (pending st)) st in
  let st := set_updatedGroups [] st in
  if zkGroups.status tx
  then
    let n := length (zkGroups.events tx) in
    Logger_log ("GroupsService: " +:+ pretty n +:+ " " +:+
                (if (n =? 1)%nat then "group" else "groups") +:+
                " have been updated in the contract") st
  else Logger_error "GroupsService: failed to update contract groups" st.

(** A whole run of [updateContractGroups] with nothing in between. *)
Definition updateContractGroups (tx : zkGroups.Tx) (st : State) : State :=
  match updatedGroups st with
  | [] => st
  | _ :: _ => updateContractGroups_resume tx (updateContractGroups_call st)
  end.

(** *** Queries *)

Definition getAllGroups : M (list Group) := Repository_find.

(** Modelled from the spec: [findBy] with a condition on [admin] returns
    the rows of that admin, in the order of the store. *)
Definition Repository_findBy (admin' : string) : M (list Group) :=
  gets (λ st, filter (λ g, admin g = admin') (groupRepository st)).

Definition getGroupsByAdmin (admin' : string) : M (list Group) :=
  Repository_findBy admin'.

Definition getGroup (groupName : string) : M Group :=
  group ← Repository_findOneBy groupName;
  match group with
  | None => throw (NotFoundException ("Group '" +:+ groupName +:+ "' does not exist"))
  | Some group => mret group
  end.

(** [this.cachedGroups.get(groupName)] followed by a property access:
    on [undefined] the access throws before the arguments are evaluated. *)
Definition cachedGroups_get (groupName : string) : M CachedGroup := λ st,
  match cachedGroups st !! groupName with
  | None => (inl (TypeError "Cannot read properties of undefined"), st)
  | Some cachedGroup => (inr cachedGroup, st)
  end.

Definition isGroupMember (groupName member : string) : M bool :=
  cachedGroup ← cachedGroups_get groupName;
  match BigInt member with
  | None => throw (SyntaxError member)
  | Some leaf => mret (negb (CachedGroup_indexOf cachedGroup leaf =? -1)%Z)
  end.

Definition generateMerkleProof (groupName member : string) : M MerkleProof :=
  isMember ← isGroupMember groupName member;
  if negb isMember then
    throw (BadRequestException
             ("Member '" +:+ member +:+ "' does not exist in the group '" +:+ groupName +:+ "'"))
  else
    cachedGroup ← cachedGroups_get groupName;
    match BigInt member with
    | None => throw (SyntaxError member)
    | Some leaf =>
        let memberIndex := CachedGroup_indexOf cachedGroup leaf in
        liftE (CachedGroup_generateMerkleProof cachedGroup memberIndex)
    end.

(** *** Construction *)

Definition cacheGroup (group : Group) : M unit :=
  let groupId := id (name group) in
  let cachedGroup := CachedGroup_new groupId (Some (treeDepth group)) in
  cachedGroup ← liftE (CachedGroup_addMembers cachedGroup (members group));
  modify (λ st, set_cachedGroups (<[name group := cachedGroup]> (cachedGroups st)) st).

Fixpoint cacheGroups (groups : list Group) : M unit :=
  match groups with
  | [] => mret tt
  | group :: rest => _ ← cacheGroup group; cacheGroups rest
  end.

(** The service right after [new GroupsService(...)], before the
    asynchronous part of the constructor has run. *)
Definition fresh (rows : list Group) (inv : Invites) (timeouts : list string) : State :=
  {| groupRepository := rows; invitesService := inv; schedulerRegistry := timeouts;
     cachedGroups := ∅; updatedGroups := []; ledger := []; pending := 0; logger := [] |}.

Definition bootstrap : M unit :=
  groups ← getAllGroups;
  _ ← cacheGroups groups;
  modify (Logger_log ("GroupsService: " +:+ pretty (length groups) +:+
                      " groups have been cached")).

Definition constructor (rows : list Group) (inv : Invites) (timeouts : list string)
  : (Exception + unit) * State :=
  bootstrap (fresh rows inv timeouts).

(** *** Mutations *)

Definition createGroup (dto : CreateGroupDto.t) (admin : string) : M Group :=
  let group := {| name := CreateGroupDto.name dto;
                  description := CreateGroupDto.description dto;
                  treeDepth := CreateGroupDto.treeDepth dto;
                  tag := CreateGroupDto.tag dto;
                  admin := admin;
                  members := [] |} in
  _ ← Repository_insert group;
  let cachedGroup := CachedGroup_new (Z.of_nat (CreateGroupDto.treeDepth dto)) None in
  _ ← modify (λ st, set_cachedGroups
                      (<[CreateGroupDto.name dto := cachedGroup]> (cachedGroups st)) st);
  _ ← modify (Logger_log ("GroupsService: group '" +:+ CreateGroupDto.name dto +:+
                          "' has been created"));
  mret group.

Definition updateGroup (dto : UpdateGroupDto.t) (groupName admin' : string) : M Group :=
  group ← getGroup groupName;
  if negb (String.eqb (admin group) admin') then
    throw (UnauthorizedException
             ("You are not the admin of the group '" +:+ groupName +:+ "'"))
  else
    let group := {| name := name group;
                    description := UpdateGroupDto.description dto;
                    treeDepth := UpdateGroupDto.treeDepth dto;
                    tag := UpdateGroupDto.tag dto;
                    admin := admin group;
                    members := members group |} in
    _ ← Repository_update group;
    _ ← modify (Logger_log ("GroupsService: group '" +:+ name group +:+
                            "' has been updated"));
    mret group.

Definition invitesService_redeemInvite (inviteCode groupName : string) : M unit := λ st,
  match redeemInvite inviteCode groupName (invitesService st) with
  | inl reason => (inl (InviteError reason), st)
  | inr inv => (inr tt, set_invitesService inv st)
  end.

Definition addMember (dto : AddMemberDto.t) (groupName member : string) : M Group :=
  isMember ← isGroupMember groupName member;
  if (isMember : bool) then
    throw (BadRequestException
             ("Member '" +:+ member +:+ "' already exists in the group '" +:+ groupName +:+ "'"))
  else
    _ ← invitesService_redeemInvite (AddMemberDto.inviteCode dto) groupName;
    group ← getGroup groupName;
    let group := {| name := name group; description := description group;
                    treeDepth := treeDepth group; tag := tag group;
                    admin := admin group;
                    members := members group ++ [member] |} in
    _ ← Repository_update group;
    cachedGroup ← cachedGroups_get groupName;
    cachedGroup ← liftE (CachedGroup_addMember cachedGroup member);
    _ ← modify (λ st, set_cachedGroups (<[groupName := cachedGroup]> (cachedGroups st)) st);
    _ ← modify (Logger_log ("GroupsService: member '" +:+ member +:+
                            "' has been added to the group '" +:+ name group +:+ "'"));
    _ ← modify (λ st, set_updatedGroups
                        (updatedGroups st ++
                           [ {| zkGroups.id := id (name group);
                                zkGroups.fingerprint := root cachedGroup |} ]) st);
    timeouts ← gets schedulerRegistry;
    _ ← (if (length timeouts =? 0)%nat then modify updateContractGroups_call else mret tt);
    mret group.
End Service.

(** ** Derived notions *)

Section Derived.
Context `{Collaborators}.

(** The member that [addMember] appends to the entity it has loaded. *)
Definition pushMember (row : Group) (member : string) : Group :=
  {| name := name row; description := description row; treeDepth := treeDepth row;
     tag := tag row; admin := admin row; members := members row ++ [member] |}.

(** The record that [createGroup] builds. *)
Definition newGroup (dto : CreateGroupDto.t) (admin' : string) : Group :=
  {| name := CreateGroupDto.name dto; description := CreateGroupDto.description dto;
     treeDepth := CreateGroupDto.treeDepth dto; tag := CreateGroupDto.tag dto;
     admin := admin'; members := [] |}.

(** What [updateGroup] throws for anyone but the admin. *)
Definition notAdmin (groupName : string) : Exception :=
  UnauthorizedException ("You are not the admin of the group '" +:+ groupName +:+ "'").

(** What [getGroup] throws for a name without a record. *)
Definition doesNotExist (groupName : string) : Exception :=
  NotFoundException ("Group '" +:+ groupName +:+ "' does not exist").

(** What [generateMerkleProof] throws for a member the group does not have. *)
Definition notAMember (groupName member : string) : Exception :=
  BadRequestException
    ("Member '" +:+ member +:+ "' does not exist in the group '" +:+ groupName +:+ "'").

(** What [addMember] throws for a member the group already has. *)
Definition alreadyExists (groupName member : string) : Exception :=
  BadRequestException
    ("Member '" +:+ member +:+ "' already exists in the group '" +:+ groupName +:+ "'").

End Derived.

(** The leaves of the cached tree are the members of the record, read as
    integers, in the same order. *)
Definition mirrors `{Collaborators} (group : Group) (cachedGroup : CachedGroup) : Prop :=
  Forall2 (λ member leaf, BigInt member = Some leaf)
          (members group) (cg_members cachedGroup).

(** Names are unique in the store, every record has its cached tree, and
    every cached tree has its record. *)
Definition mirror `{Collaborators} (st : State) : Prop :=
  NoDup (name <$> groupRepository st)
  ∧ Forall (λ group, from_option (mirrors group) False (cachedGroups st !! name group))
           (groupRepository st)
  ∧ map_Forall (λ groupName _, groupName ∈ name <$> groupRepository st) (cachedGroups st).

#[export] Instance mirrors_dec `{Collaborators} group cachedGroup :
  Decision (mirrors group cachedGroup).
Proof. unfold mirrors. apply _. Defined.

#[export] Instance mirrors_lookup_dec `{Collaborators} group (o : option CachedGroup) :
  Decision (from_option (mirrors group) False o).
Proof. destruct o; apply _. Defined.

#[export] Instance mirror_dec `{Collaborators} (st : State) : Decision (mirror st).
Proof. unfold mirror. apply _. Defined.

(** Inserting members one at a time, in the order of the list, stopping at
    the first insertion that throws. *)
Definition insertInOrder `{Collaborators} (tree : CachedGroup) (ms : list string)
  : Exception + CachedGroup :=
  foldl (λ acc member, match acc with
                       | inl e => inl e
                       | inr t => CachedGroup_addMember t member
                       end) (inr tree) ms.

(** The tree of a record: its members inserted in stored order into a new
    tree with the id of the record's name and the record's depth. *)
Definition rebuilt `{Collaborators} (group : Group) : Exception + CachedGroup :=
  insertInOrder (CachedGroup_new (id (name group)) (Some (treeDepth group)))
                (members group).

(** The members of a record are integers and are not more than the depth
    of the record allows. *)
Definition rebuildable `{Collaborators} (group : Group) : Prop :=
  Forall (λ m, is_Some (BigInt m)) (members group)
  ∧ (length (members group) ≤ 2 ^ treeDepth group)%nat.

(** The two mutations of the service the mirror is about. *)
Inductive Call :=
| CreateGroup (dto : CreateGroupDto.t) (admin' : string)
| AddMember (dto : AddMemberDto.t) (groupName member : string).

Definition perform `{Collaborators} (c : Call) : M Group :=
  match c with
  | CreateGroup dto admin' => createGroup dto admin'
  | AddMember dto groupName member => addMember dto groupName member
  end.

#[export] Instance Group_eq_dec : EqDecision Group.
Proof. solve_decision. Defined.

(** The record that [updateGroup] saves. *)
Definition editGroup (row : Group) (dto : UpdateGroupDto.t) : Group :=
  {| name := name row; description := UpdateGroupDto.description dto;
     treeDepth := UpdateGroupDto.treeDepth dto; tag := UpdateGroupDto.tag dto;
     admin := admin row; members := members row |}.

(** What happens to a running service: the three mutations, the timer of
    [@Timeout] calling [updateContractGroups], and a transaction of an
    update in flight being settled. *)
Inductive Request :=
| DoCreateGroup (dto : CreateGroupDto.t) (admin' : string)
| DoUpdateGroup (dto : UpdateGroupDto.t) (groupName admin' : string)
| DoAddMember (dto : AddMemberDto.t) (groupName member : string)
| TimerFires
| TransactionSettles (tx : zkGroups.Tx).

Definition handle `{Collaborators} (r : Request) (st : State) : State :=
  match r with
  | DoCreateGroup dto admin' => snd (createGroup dto admin' st)
  | DoUpdateGroup dto groupName admin' => snd (updateGroup dto groupName admin' st)
  | DoAddMember dto groupName member => snd (addMember dto groupName member st)
  | TimerFires => updateContractGroups_call st
  | TransactionSettles tx =>
      match pending st with
      | O => st
      | S _ => updateContractGroups_resume tx st
      end
  end.

(** No cached tree holds more leaves than its depth allows. *)
Definition withinCapacity `{Collaborators} (st : State) : Prop :=
  map_Forall (λ _ tree, (Z.of_nat (length (cg_members tree)) <= capacity tree)%Z)
             (cachedGroups st).

(** No cached tree holds a leaf twice. *)
Definition distinctLeaves `{Collaborators} (st : State) : Prop :=
  map_Forall (λ _ tree, NoDup (cg_members tree)) (cachedGroups st).

(** No batch handed to the ledger client is empty. *)
Definition nonEmptyBatches `{Collaborators} (st : State) : Prop :=
  Forall (λ batch, batch ≠ []) (ledger st).

#[export] Instance withinCapacity_dec `{Collaborators} (st : State) :
  Decision (withinCapacity st).
Proof. unfold withinCapacity. apply _. Defined.

#[export] Instance distinctLeaves_dec `{Collaborators} (st : State) :
  Decision (distinctLeaves st).
Proof. unfold distinctLeaves. apply _. Defined.

#[export] Instance nonEmptyBatches_dec `{Collaborators} (st : State) :
  Decision (nonEmptyBatches st).
Proof. unfold nonEmptyBatches. apply _. Defined.

#[local] Arguments findRow : simpl never.
#[local] Arguments updateRow : simpl never.
#[local] Arguments insert : simpl never.
#[local] Arguments root : simpl never.
#[local] Arguments CachedGroup_indexOf : simpl never.
#[local] Arguments CachedGroup_generateMerkleProof : simpl never.
#[local] Arguments updateContractGroups_call : simpl never.
#[local] Arguments String.append : simpl never.

(** ** A sample deployment

    Concrete collaborators on which the service can be run: decimal
    [BigInt], small arithmetic stand-ins for the hashes, and an invites
    service that holds the open (code, group) pairs and hands each out
    once. *)
Module Sample.
Definition digit (c : ascii) : option Z :=
  let n := Z.of_nat (nat_of_ascii c) in
  if ((48 <=? n) && (n <=? 57))%Z then Some (n - 48)%Z else None.

Fixpoint decimal (s : string) (acc : Z) : option Z :=
  match s with
  | EmptyString => Some acc
  | String c rest =>
      match digit c with
      | None => None
      | Some d => decimal rest (10 * acc + d)%Z
      end
  end.

Fixpoint codes (s : string) (acc : Z) : Z :=
  match s with
  | EmptyString => acc
  | String c rest => codes rest (256 * acc + Z.of_nat (nat_of_ascii c))%Z
  end.

Fixpoint redeem (inviteCode groupName : string) (open : list (string * string))
  : string + list (string * string) :=
  match open with
  | [] => inl ("Invite code '" +:+ inviteCode +:+ "' is not valid")
  | (c, g) :: rest =>
      if String.eqb c inviteCode && String.eqb g groupName then inr rest
      else match redeem inviteCode groupName rest with
           | inl e => inl e
           | inr rest' => inr ((c, g) :: rest')
           end
  end.

#[export] Instance collaborators : Collaborators := {|
  poseidon2 := λ a b, (3 * a + 5 * b + 1)%Z;
  hash := λ i, (i + 7)%Z;
  id := λ s, codes s 0;
  BigInt := λ s, decimal s 0;
  Invites := list (string * string);
  redeemInvite := redeem
|}.

Definition voters : CreateGroupDto.t :=
  {| CreateGroupDto.name := "voters"; CreateGroupDto.description := "all voters";
     CreateGroupDto.treeDepth := 1; CreateGroupDto.tag := "vote" |}.

Definition invite (code : string) : AddMemberDto.t := {| AddMemberDto.inviteCode := code |}.

(** A service started on an empty store, with five open invites for
    ["voters"]. *)
Definition st0 (timeouts : list string) : State :=
  fresh [] [("i1", "voters"); ("i2", "voters"); ("i3", "voters");
            ("i4", "voters"); ("i5", "voters")] timeouts.

(** The same service after a restart on the rows it has persisted. *)
Definition restart (st : State) : State :=
  snd (constructor (groupRepository st) (invitesService st) (schedulerRegistry st)).

(** ["voters"] created by alice, then joined by 11 and by 12. *)
Definition created (timeouts : list string) : State :=
  snd (createGroup voters "alice" (st0 timeouts)).

Definition joined1 (timeouts : list string) : State :=
  snd (addMember (invite "i1") "voters" "11" (created timeouts)).

Definition joined2 (timeouts : list string) : State :=
  snd (addMember (invite "i2") "voters" "12" (joined1 timeouts)).

(** After a restart the tree of ["voters"] has depth 1 and is full. *)
Definition full (timeouts : list string) : State := restart (joined2 timeouts).

Definition overfull (timeouts : list string) : State :=
  snd (addMember (invite "i3") "voters" "13" (full timeouts)).

Definition failed : zkGroups.Tx := {| zkGroups.status := false; zkGroups.events := [] |}.
Definition settled : zkGroups.Tx := {| zkGroups.status := true; zkGroups.events := [1%Z] |}.

Definition votersRecord (ms : list string) : Group :=
  {| name := "voters"; description := "all voters"; treeDepth := 1; tag := "vote";
     admin := "alice"; members := ms |}.

(** A contract update that starts while 11 is queued, with 12 joining
    before the transaction settles. *)
Definition submitted : State := updateContractGroups_call (joined1 ["timeout"]).
Definition meanwhile : State := snd (addMember (invite "i2") "voters" "12" submitted).
Definition afterwards : State := updateContractGroups_resume settled meanwhile.

(** New details for ["voters"], and the service after alice has set them. *)
Definition newDetails : UpdateGroupDto.t :=
  {| UpdateGroupDto.description := "every voter"; UpdateGroupDto.treeDepth := 3;
     UpdateGroupDto.tag := "poll" |}.

Definition edited : State := snd (updateGroup newDetails "voters" "alice" (created [])).

(** A record with more members than its depth allows, and one after it. *)
Definition jury : Group :=
  {| name := "jury"; description := "the jury"; treeDepth := 1; tag := "court";
     admin := "carol"; members := ["1"; "2"; "3"] |}.

Definition board : Group :=
  {| name := "board"; description := "the board"; treeDepth := 2; tag := "firm";
     admin := "dave"; members := [] |}.
End Sample.

(** ** Properties of the tree package *)

Section TreeFacts.
Context `{Collaborators}.

Lemma nth_nil_default (n : nat) (d : Z) : nth n [] d = d.
Proof. by destruct n. Qed.

(** A node one level up is the hash of its two children, absent
    children counting as the zero of their level. *)
Lemma nth_hashLevel (zero : Z) (nodes : list Z) :
  (∀ k, nth k (hashLevel zero nodes) (poseidon2 zero zero)
        = poseidon2 (nth (2 * k) nodes zero) (nth (2 * k + 1) nodes zero))
  ∧ (∀ a k, nth k (hashLevel zero (a :: nodes)) (poseidon2 zero zero)
            = poseidon2 (nth (2 * k) (a :: nodes) zero)
                        (nth (2 * k + 1) (a :: nodes) zero)).
Proof.
  induction nodes as [|b rest [IH1 IH2]].
  - split.
    + intros k. cbn [hashLevel]. by rewrite !nth_nil_default.
    + intros a [|k]; [done|].
      replace (2 * S k)%nat with (S (S (2 * k))) by lia.
      cbn [hashLevel nth Nat.add]. by destruct k.
  - split; [apply IH2|].
    intros a [|k]; [done|].
    replace (2 * S k)%nat with (S (S (2 * k))) by lia.
    cbn [hashLevel nth Nat.add]. apply IH1.
Qed.

Lemma recompute_createProof (depth : nat) :
  ∀ zero nodes index,
    (index < 2 ^ depth)%nat →
    let p := createProof depth zero nodes index in
    recompute (nth index nodes zero) (fst p) (snd p) = rootFrom depth zero nodes.
Proof.
  induction depth as [|d IH]; intros zero nodes index Hlt.
  - cbn in *. by replace index with 0%nat by lia.
  - rewrite Nat.pow_succ_r' in Hlt.
    pose proof (Nat.div_mod_eq index 2) as Hdm.
    assert (index mod 2 < 2)%nat as Hm by (apply Nat.mod_upper_bound; lia).
    assert (index / 2 < 2 ^ d)%nat as Hd by (apply Nat.Div0.div_lt_upper_bound; lia).
    specialize (IH (poseidon2 zero zero) (hashLevel zero nodes) (index / 2)%nat Hd).
    cbv zeta in *. cbn [createProof rootFrom recompute fst snd].
    rewrite <- IH. f_equal.
    destruct (nth_hashLevel zero nodes) as [-> _].
    destruct (index mod 2)%nat as [|[|?]] eqn:E; cbn [Nat.eqb]; [| |lia].
    + by replace (2 * (index / 2))%nat with index by lia.
    + replace (2 * (index / 2) + 1)%nat with index by lia.
      by replace (2 * (index / 2))%nat with (index - 1)%nat by lia.
Qed.

(** [indexOf] answers -1 or the position of the leaf it was asked for. *)
Lemma indexOfFrom_spec (leaf : Z) (leaves : list Z) :
  ∀ i, indexOfFrom leaf leaves i = (-1)%Z ∧ leaf ∉ leaves
       ∨ ∃ k, (k < length leaves)%nat ∧ nth k leaves 0%Z = leaf
              ∧ indexOfFrom leaf leaves i = (i + Z.of_nat k)%Z.
Proof.
  induction leaves as [|x rest IH]; intros i; simpl.
  - left. split; [done|]. apply not_elem_of_nil.
  - destruct (Z.eqb_spec x leaf) as [->|Hne].
    + right. exists 0%nat. split; [lia|]. split; [done|]. lia.
    + destruct (IH (i + 1)%Z) as [[E Hnot]|(k & Hk & Hn & E)].
      * left. split; [done|]. rewrite elem_of_cons. intros [?|?]; congruence.
      * right. exists (S k). split; [lia|]. split; [done|]. lia.
Qed.

Lemma indexOf_absent (g : CachedGroup) (leaf : Z) :
  CachedGroup_indexOf g leaf = (-1)%Z ↔ leaf ∉ cg_members g.
Proof.
  unfold CachedGroup_indexOf.
  destruct (indexOfFrom_spec leaf (cg_members g) 0) as [[E Hnot]|(k & Hk & Hn & E)].
  - done.
  - split; [lia|]. intros Hnot. exfalso. apply Hnot.
    rewrite <- Hn. apply list_elem_of_In, nth_In. done.
Qed.

Lemma insert_inv (g g' : CachedGroup) (leaf : Z) :
  insert g leaf = inr g' →
  (Z.of_nat (length (cg_members g)) < capacity g)%Z
  ∧ g' = {| cg_id := cg_id g; cg_depth := cg_depth g;
            cg_members := cg_members g ++ [leaf] |}.
Proof.
  unfold insert. destruct (Z.ltb_spec (Z.of_nat (length (cg_members g))) (capacity g));
    [|done]. intros [= <-]. done.
Qed.

Lemma insert_full (g : CachedGroup) (leaf : Z) :
  (capacity g <= Z.of_nat (length (cg_members g)))%Z →
  insert g leaf = inl (TreeError "The tree is full").
Proof.
  unfold insert. intros Hfull.
  destruct (Z.ltb_spec (Z.of_nat (length (cg_members g))) (capacity g)); [lia|done].
Qed.

Lemma capacity_nat (g : CachedGroup) : capacity g = Z.of_nat (2 ^ cg_depth g).
Proof. unfold capacity. by rewrite Nat2Z.inj_pow. Qed.

(** The proof generated for a member is checked by the root of the
    tree, as long as the tree holds no more leaves than it has room for. *)
Lemma generateMerkleProof_member (g : CachedGroup) (leaf : Z) :
  (Z.of_nat (length (cg_members g)) <= capacity g)%Z →
  leaf ∈ cg_members g →
  ∃ p, CachedGroup_generateMerkleProof g (CachedGroup_indexOf g leaf) = inr p
       ∧ mp_leaf p = leaf ∧ mp_root p = root g ∧ recomputedRoot p = root g.
Proof.
  intros Hcap Hin. unfold CachedGroup_generateMerkleProof, CachedGroup_indexOf.
  destruct (indexOfFrom_spec leaf (cg_members g) 0) as [[_ Hnot]|(k & Hk & Hn & E)];
    [done|].
  rewrite E, Z.add_0_l, Nat2Z.id.
  destruct (Z.ltb_spec (Z.of_nat k) (Z.of_nat (length (cg_members g)))); [|lia].
  replace (0 <=? Z.of_nat k)%Z with true by (symmetry; apply Z.leb_le; lia).
  cbn [andb]. eexists. split; [done|]. cbn [mp_leaf mp_root].
  rewrite capacity_nat in Hcap.
  assert (nth k (cg_members g) (hash (cg_id g)) = leaf) as Hleaf.
  { rewrite <- Hn. by apply nth_indep. }
  split; [done|]. split; [done|].
  unfold recomputedRoot. cbn [mp_leaf mp_siblings mp_pathIndices].
  apply (recompute_createProof (cg_depth g)). lia.
Qed.
End TreeFacts.

(** ** How the calls end *)

Section Calls.
Context `{Collaborators}.

Ltac run :=
  unfold addMember, createGroup, generateMerkleProof, isGroupMember, cachedGroups_get,
    invitesService_redeemInvite, getGroup, Repository_findOneBy, Repository_update,
    Repository_insert, liftE, CachedGroup_addMember, throw, gets, modify,
    mbind, M_bind, mret, M_ret in *.

Lemma findRow_Some (groupName : string) (rows : list Group) (row : Group) :
  findRow groupName rows = Some row → row ∈ rows ∧ name row = groupName.
Proof.
  unfold findRow. intros Hf. apply find_some in Hf as [Hin Heq].
  split; [by apply list_elem_of_In|]. by apply String.eqb_eq.
Qed.

Lemma findRow_None (groupName : string) (rows : list Group) :
  findRow groupName rows = None ↔ groupName ∉ name <$> rows.
Proof.
  unfold findRow. split.
  - intros Hf Hin. apply list_elem_of_fmap in Hin as (g & -> & Hg).
    apply list_elem_of_In in Hg.
    pose proof (find_none _ _ Hf g Hg) as Hne. simpl in Hne.
    by rewrite String.eqb_refl in Hne.
  - intros Hnot. destruct (find _ rows) as [g|] eqn:Hf; [|done].
    apply find_some in Hf as [Hin Heq]. exfalso. apply Hnot.
    apply String.eqb_eq in Heq as <-.
    apply list_elem_of_fmap. exists g. split; [done|]. by apply list_elem_of_In.
Qed.

(** The start of [updateContractGroups] touches the ledger only. *)
Lemma updateContractGroups_call_frame (st : State) :
  groupRepository (updateContractGroups_call st) = groupRepository st
  ∧ cachedGroups (updateContractGroups_call st) = cachedGroups st
  ∧ updatedGroups (updateContractGroups_call st) = updatedGroups st
  ∧ invitesService (updateContractGroups_call st) = invitesService st
  ∧ schedulerRegistry (updateContractGroups_call st) = schedulerRegistry st
  ∧ logger (updateContractGroups_call st) = logger st.
Proof.
  unfold updateContractGroups_call.
  destruct (updatedGroups st) eqn:E; rewrite <- ?E; done.
Qed.

Lemma updateContractGroups_call_ledger (st : State) :
  updatedGroups st ≠ [] →
  ledger (updateContractGroups_call st) = ledger st ++ [updatedGroups st]
  ∧ pending (updateContractGroups_call st) = S (pending st).
Proof.
  unfold updateContractGroups_call.
  destruct (updatedGroups st) eqn:E; rewrite <- ?E; done.
Qed.

(** A call of [addMember] that returns: the checks it has passed and the
    state it leaves. *)
Lemma addMember_returns dto groupName member (st st' : State) group :
  addMember dto groupName member st = (inr group, st') →
  ∃ cachedGroup leaf inv row cachedGroup',
    cachedGroups st !! groupName = Some cachedGroup
    ∧ BigInt member = Some leaf
    ∧ (leaf ∉ cg_members cachedGroup)
    ∧ redeemInvite (AddMemberDto.inviteCode dto) groupName (invitesService st) = inr inv
    ∧ findRow groupName (groupRepository st) = Some row
    ∧ insert cachedGroup leaf = inr cachedGroup'
    ∧ group = pushMember row member
    ∧ groupRepository st' = updateRow group (groupRepository st)
    ∧ cachedGroups st' = <[groupName := cachedGroup']> (cachedGroups st)
    ∧ updatedGroups st' =
        (updatedGroups st ++ [ {| zkGroups.id := id groupName;
                                  zkGroups.fingerprint := root cachedGroup' |} ])
    ∧ invitesService st' = inv
    ∧ schedulerRegistry st' = schedulerRegistry st
    ∧ ledger st' = (if (length (schedulerRegistry st) =? 0)%nat
                    then ledger st ++ [updatedGroups st'] else ledger st)
    ∧ pending st' = (if (length (schedulerRegistry st) =? 0)%nat
                     then S (pending st) else pending st).
Proof.
  intros Hrun. run.
  destruct (cachedGroups st !! groupName) as [cachedGroup|] eqn:Hget; [|congruence].
  destruct (BigInt member) as [leaf|] eqn:Hleaf; [|congruence].
  destruct (Z.eqb_spec (CachedGroup_indexOf cachedGroup leaf) (-1)) as [Hidx|];
    [|cbn in Hrun; congruence].
  apply indexOf_absent in Hidx. cbn [negb] in Hrun.
  destruct (redeemInvite _ _ _) as [|inv] eqn:Hinv; [congruence|].
  cbn in Hrun.
  destruct (findRow groupName (groupRepository st)) as [row|] eqn:Hrow; [|congruence].
  cbn in Hrun. rewrite Hget in Hrun. cbn in Hrun.
  destruct (insert cachedGroup leaf) as [|cachedGroup'] eqn:Hins; [congruence|].
  destruct (findRow_Some _ _ _ Hrow) as [_ Hname].
  exists cachedGroup, leaf, inv, row, cachedGroup'.
  rewrite Hname in Hrun.
  destruct (length (schedulerRegistry st) =? 0)%nat eqn:Ht;
    cbn in Hrun; injection Hrun as <- <-;
    unfold pushMember; rewrite Hname; repeat (split; [done|]).
  - match goal with |- context [updateContractGroups_call ?s] =>
      destruct (updateContractGroups_call_frame s) as (-> & -> & -> & -> & -> & _);
      destruct (updateContractGroups_call_ledger s) as [-> ->]
    end; cbn; [by destruct (updatedGroups st)|done].
  - done.
Qed.

(** The membership test reads the cache and nothing else. *)
Lemma isGroupMember_pure groupName member (st : State) :
  snd (isGroupMember groupName member st) = st.
Proof.
  run. destruct (cachedGroups st !! groupName); [|done].
  by destruct (BigInt member).
Qed.

Lemma isGroupMember_known groupName member (st : State) cachedGroup leaf :
  cachedGroups st !! groupName = Some cachedGroup →
  BigInt member = Some leaf →
  isGroupMember groupName member st
  = (inr (bool_decide (leaf ∈ cg_members cachedGroup)), st).
Proof.
  intros Hget Hleaf. run. rewrite Hget, Hleaf. do 2 f_equal.
  pose proof (indexOf_absent cachedGroup leaf) as Habs.
  destruct (Z.eqb_spec (CachedGroup_indexOf cachedGroup leaf) (-1)) as [E|E]; cbn.
  - rewrite bool_decide_eq_false_2; [done|]. by apply Habs.
  - rewrite bool_decide_eq_true_2; [done|].
    destruct (decide (leaf ∈ cg_members cachedGroup)) as [|Hn]; [done|].
    by apply Habs in Hn.
Qed.

(** A call of [addMember] that throws has left the cache, the queue and
    the ledger alone; the rows are as before unless it was the tree that
    refused the leaf. *)
Lemma addMember_throws dto groupName member (st st' : State) e :
  addMember dto groupName member st = (inl e, st') →
  cachedGroups st' = cachedGroups st
  ∧ updatedGroups st' = updatedGroups st
  ∧ ledger st' = ledger st
  ∧ (groupRepository st' = groupRepository st ∨ e = TreeError "The tree is full").
Proof.
  intros Hrun. run.
  destruct (cachedGroups st !! groupName) as [cachedGroup|] eqn:Hget;
    [|by injection Hrun as <- <-; auto].
  destruct (BigInt member) as [leaf|] eqn:Hleaf; [|by injection Hrun as <- <-; auto].
  destruct (negb _); [by injection Hrun as <- <-; auto|].
  destruct (redeemInvite _ _ _) as [|inv] eqn:Hinv; [by injection Hrun as <- <-; auto|].
  cbn in Hrun.
  destruct (findRow groupName (groupRepository st)) as [row|] eqn:Hrow;
    [|by injection Hrun as <- <-; auto].
  cbn in Hrun. rewrite Hget in Hrun. cbn in Hrun.
  destruct (insert cachedGroup leaf) as [e'|cachedGroup'] eqn:Hins.
  - injection Hrun as <- <-. repeat (split; [done|]). right.
    unfold insert in Hins. by destruct (_ <? _)%Z; simplify_eq.
  - destruct (length (schedulerRegistry st) =? 0)%nat; cbn in Hrun; congruence.
Qed.

Lemma createGroup_taken dto admin' (st : State) row :
  findRow (CreateGroupDto.name dto) (groupRepository st) = Some row →
  createGroup dto admin' st
  = (inl (QueryFailedError "UNIQUE constraint failed: groups.name"), st).
Proof. intros Hrow. run. cbn. by rewrite Hrow. Qed.

Lemma createGroup_free dto admin' (st : State) :
  findRow (CreateGroupDto.name dto) (groupRepository st) = None →
  ∃ st', createGroup dto admin' st = (inr (newGroup dto admin'), st')
         ∧ groupRepository st' = groupRepository st ++ [newGroup dto admin']
         ∧ cachedGroups st' =
             <[CreateGroupDto.name dto :=
                 CachedGroup_new (Z.of_nat (CreateGroupDto.treeDepth dto)) None]>
               (cachedGroups st)
         ∧ updatedGroups st' = updatedGroups st
         ∧ ledger st' = ledger st
         ∧ invitesService st' = invitesService st
         ∧ schedulerRegistry st' = schedulerRegistry st.
Proof. intros Hrow. run. cbn. rewrite Hrow. cbn. eexists. by split. Qed.
End Calls.

(** ** The cache mirrors the store *)

Section Mirror.
Context `{Collaborators}.

Lemma updateRow_names (group : Group) (rows : list Group) :
  name <$> updateRow group rows = name <$> rows.
Proof.
  unfold updateRow. rewrite <- list_fmap_compose. apply list_fmap_ext.
  intros _ g _. simpl. destruct (String.eqb_spec (name g) (name group)); done.
Qed.

Lemma findRow_updateRow (group row : Group) (rows : list Group) :
  findRow (name group) rows = Some row →
  findRow (name group) (updateRow group rows) = Some group.
Proof.
  unfold findRow, updateRow. induction rows as [|g rest IH]; [done|]. cbn.
  destruct (String.eqb_spec (name g) (name group)) as [E|E].
  - intros _. by rewrite String.eqb_refl.
  - intros Hf. destruct (String.eqb_spec (name g) (name group)); [done|]. by apply IH.
Qed.

Lemma mirror_lookup (st : State) (row : Group) :
  mirror st → row ∈ groupRepository st →
  ∃ cachedGroup, cachedGroups st !! name row = Some cachedGroup
                 ∧ mirrors row cachedGroup.
Proof.
  intros (_ & Hall & _) Hin. rewrite Forall_forall in Hall.
  specialize (Hall row Hin). destruct (cachedGroups st !! name row); [eauto|done].
Qed.

Lemma mirror_fresh inv timeouts : mirror (fresh [] inv timeouts).
Proof.
  split; [constructor|]. split; [constructor|]. apply map_Forall_empty.
Qed.

Lemma mirror_createGroup dto admin' (st st' : State) group :
  mirror st → createGroup dto admin' st = (inr group, st') → mirror st'.
Proof.
  intros (Hnd & Hall & Hdom) Hrun.
  destruct (findRow (CreateGroupDto.name dto) (groupRepository st)) as [row|] eqn:Hrow.
  { rewrite (createGroup_taken _ _ _ _ Hrow) in Hrun. congruence. }
  destruct (createGroup_free dto admin' st Hrow) as (st1 & Hrun1 & Hrows & Hcache & _).
  rewrite Hrun in Hrun1. injection Hrun1 as -> ->.
  apply findRow_None in Hrow.
  unfold mirror. rewrite Hrows, Hcache, fmap_app. cbn [fmap list_fmap newGroup name].
  split; [|split].
  - apply NoDup_app. split; [done|]. split; [|apply NoDup_singleton].
    intros x Hx Hx'. apply list_elem_of_singleton in Hx' as ->. done.
  - apply Forall_app. split.
    + rewrite Forall_forall in Hall |- *. intros g Hg. specialize (Hall g Hg).
      rewrite lookup_insert_ne; [done|]. intros E. apply Hrow. rewrite E.
      apply list_elem_of_fmap. eauto.
    + constructor; [|constructor]. cbn. rewrite lookup_insert_eq. cbn. constructor.
  - apply map_Forall_insert_2.
    + apply elem_of_app. right. apply list_elem_of_singleton. done.
    + eapply map_Forall_impl; [exact Hdom|]. intros n ? Hn. cbn in Hn.
      apply elem_of_app. by left.
Qed.

Lemma mirror_addMember dto groupName member (st st' : State) group :
  mirror st → addMember dto groupName member st = (inr group, st') → mirror st'.
Proof.
  intros Hm Hrun.
  destruct (addMember_returns _ _ _ _ _ _ Hrun)
    as (cg & leaf & inv & row & cg' & Hget & Hleaf & _ & _ & Hrow & Hins & -> &
        Hrows & Hcache & _).
  destruct (findRow_Some _ _ _ Hrow) as [Hin Hname].
  destruct (mirror_lookup st row Hm Hin) as (cg0 & Hget0 & Hmir).
  rewrite Hname, Hget in Hget0. injection Hget0 as <-.
  apply insert_inv in Hins as [_ ->].
  destruct Hm as (Hnd & Hall & Hdom).
  unfold mirror. rewrite Hrows, Hcache, updateRow_names.
  split; [done|]. split.
  - unfold updateRow. rewrite Forall_fmap, Forall_forall in *.
    intros g Hg. specialize (Hall g Hg). cbn.
    destruct (String.eqb_spec (name g) (name row)) as [E|E]; cbn.
    + rewrite Hname, lookup_insert_eq. cbn. unfold mirrors. cbn.
      apply Forall2_app; [done|]. by constructor.
    + rewrite lookup_insert_ne; [done|]. congruence.
  - apply map_Forall_insert_2; [|done].
    rewrite <- Hname. apply list_elem_of_fmap. eauto.
Qed.
End Mirror.

(** ** The cache built at construction *)

Section Bootstrap.
Context `{Collaborators}.

Lemma insertInOrder_thrown (e : Exception) (ms : list string) :
  foldl (λ acc member, match acc with
                       | inl e => inl e
                       | inr t => CachedGroup_addMember t member
                       end) (inl e) ms = inl e.
Proof. by induction ms. Qed.

Lemma addMembers_insertInOrder (ms : list string) :
  ∀ tree, CachedGroup_addMembers tree ms = insertInOrder tree ms.
Proof.
  unfold insertInOrder. induction ms as [|m rest IH]; intros tree; cbn; [done|].
  destruct (CachedGroup_addMember tree m) as [e|tree'].
  - by rewrite insertInOrder_thrown.
  - apply IH.
Qed.

Lemma addMembers_inv (ms : list string) :
  ∀ tree tree', CachedGroup_addMembers tree ms = inr tree' →
    cg_id tree' = cg_id tree ∧ cg_depth tree' = cg_depth tree
    ∧ ∃ leaves, cg_members tree' = cg_members tree ++ leaves
                ∧ Forall2 (λ member leaf, BigInt member = Some leaf) ms leaves.
Proof.
  induction ms as [|m rest IH]; intros tree tree'; cbn.
  - intros [= <-]. repeat (split; [done|]). exists []. by rewrite app_nil_r.
  - unfold CachedGroup_addMember.
    destruct (BigInt m) as [leaf|] eqn:Hleaf; [|done].
    destruct (insert tree leaf) as [|tree1] eqn:Hins; [done|].
    apply insert_inv in Hins as [_ ->]. intros Hrest.
    apply IH in Hrest as (-> & -> & leaves & -> & Hall). cbn.
    repeat (split; [done|]). exists (leaf :: leaves).
    split; [by rewrite <- app_assoc|]. by constructor.
Qed.

Lemma rebuilt_mirrors (group : Group) (tree : CachedGroup) :
  rebuilt group = inr tree → mirrors group tree.
Proof.
  unfold rebuilt. rewrite <- addMembers_insertInOrder. intros Hb.
  apply addMembers_inv in Hb as (_ & _ & leaves & Hmem & Hall).
  unfold mirrors. by rewrite Hmem.
Qed.

Lemma cacheGroup_run (group : Group) (st : State) :
  cacheGroup group st =
    match rebuilt group with
    | inl e => (inl e, st)
    | inr tree =>
        (inr tt, set_cachedGroups (<[name group := tree]> (cachedGroups st)) st)
    end.
Proof.
  unfold cacheGroup, rebuilt, liftE, modify, mbind, M_bind.
  rewrite <- addMembers_insertInOrder. by destruct (CachedGroup_addMembers _ _).
Qed.

Lemma cacheGroups_returns (groups : list Group) :
  ∀ st st' : State,
    cacheGroups groups st = (inr tt, st') →
    NoDup (name <$> groups) →
    groupRepository st' = groupRepository st
    ∧ (∀ group, group ∈ groups →
         ∃ tree, rebuilt group = inr tree ∧ cachedGroups st' !! name group = Some tree)
    ∧ (∀ groupName, groupName ∉ name <$> groups →
         cachedGroups st' !! groupName = cachedGroups st !! groupName).
Proof.
  induction groups as [|g rest IH]; intros st st' Hrun Hnd; cbn in Hrun.
  - injection Hrun as <-. split; [done|]. split; [|done].
    intros group Hin. by apply elem_of_nil in Hin.
  - unfold mbind, M_bind in Hrun. rewrite cacheGroup_run in Hrun.
    destruct (rebuilt g) as [|tree] eqn:Hb; [done|].
    rewrite fmap_cons in Hnd. apply NoDup_cons in Hnd as [Hfresh Hnd].
    destruct (IH _ _ Hrun Hnd) as (Hrows & Hin & Hout).
    split; [done|]. split.
    + intros group Hg. apply elem_of_cons in Hg as [->|Hg]; [|by apply Hin].
      exists tree. split; [done|]. rewrite (Hout _ Hfresh). cbn.
      apply lookup_insert_eq.
    + intros groupName Hn. rewrite fmap_cons in Hn.
      apply not_elem_of_cons in Hn as [Hne Hn].
      rewrite (Hout _ Hn). cbn. by apply lookup_insert_ne.
Qed.

(** When the constructor has run to its end on a store with unique
    names, every record has its rebuilt tree in the cache, and the cache
    holds nothing else. *)
Lemma constructor_returns rows inv timeouts (st : State) :
  constructor rows inv timeouts = (inr tt, st) →
  NoDup (name <$> rows) →
  groupRepository st = rows
  ∧ (∀ group, group ∈ rows →
       ∃ tree, rebuilt group = inr tree ∧ cachedGroups st !! name group = Some tree)
  ∧ (∀ groupName, groupName ∉ name <$> rows → cachedGroups st !! groupName = None).
Proof.
  unfold constructor, bootstrap, getAllGroups, Repository_find, gets, modify,
    mbind, M_bind. cbn.
  destruct (cacheGroups rows (fresh rows inv timeouts)) as [[|[]] st1] eqn:Hrun; [done|].
  intros [= <-] Hnd.
  destruct (cacheGroups_returns _ _ _ Hrun Hnd) as (Hrows & Hin & Hout).
  cbn. split; [done|]. split; [done|].
  intros groupName Hn. by rewrite (Hout _ Hn).
Qed.

Lemma mirror_constructor rows inv timeouts (st : State) :
  constructor rows inv timeouts = (inr tt, st) →
  NoDup (name <$> rows) →
  mirror st.
Proof.
  intros Hrun Hnd.
  destruct (constructor_returns _ _ _ _ Hrun Hnd) as (Hrows & Hin & Hout).
  unfold mirror. rewrite Hrows. split; [done|]. split.
  - apply Forall_forall. intros g Hg.
    destruct (Hin g Hg) as (tree & Hb & ->). cbn. by apply rebuilt_mirrors.
  - intros groupName tree Hget.
    destruct (decide (groupName ∈ name <$> rows)) as [|Hn]; [done|].
    rewrite (Hout _ Hn) in Hget. done.
Qed.
End Bootstrap.

(** ** Adding a member *)

Section AddMember.
Context `{Collaborators}.

Lemma addMember_member dto groupName member (st : State) tree leaf :
  cachedGroups st !! groupName = Some tree →
  BigInt member = Some leaf →
  leaf ∈ cg_members tree →
  addMember dto groupName member st = (inl (alreadyExists groupName member), st).
Proof.
  intros Hget Hleaf Hin. unfold addMember, mbind, M_bind.
  rewrite (isGroupMember_known _ _ _ _ _ Hget Hleaf).
  by rewrite bool_decide_eq_true_2.
Qed.

Lemma addMember_succeeds dto groupName member (st : State) tree leaf inv row :
  cachedGroups st !! groupName = Some tree →
  BigInt member = Some leaf →
  leaf ∉ cg_members tree →
  (Z.of_nat (length (cg_members tree)) < capacity tree)%Z →
  redeemInvite (AddMemberDto.inviteCode dto) groupName (invitesService st) = inr inv →
  findRow groupName (groupRepository st) = Some row →
  ∃ st', addMember dto groupName member st = (inr (pushMember row member), st').
Proof.
  intros Hget Hleaf Hnot Hroom Hinv Hrow. unfold addMember, mbind, M_bind.
  rewrite (isGroupMember_known _ _ _ _ _ Hget Hleaf).
  rewrite bool_decide_eq_false_2 by done.
  unfold invitesService_redeemInvite. rewrite Hinv.
  unfold getGroup, Repository_findOneBy, gets, mbind, M_bind. cbn.
  rewrite Hrow. cbn. unfold cachedGroups_get. cbn. rewrite Hget.
  unfold liftE, CachedGroup_addMember. rewrite Hleaf.
  unfold insert. destruct (Z.ltb_spec (Z.of_nat (length (cg_members tree))) (capacity tree));
    [|lia].
  cbn. destruct (length (schedulerRegistry st) =? 0)%nat; cbn; eauto.
Qed.

(** C2. If the invite redemption that [addMember] reaches fails, the call
    throws the error of the invites service and the whole state, hence
    the persisted members, the cached leaves, the root and the queue of
    pending updates, is what it was before the call. *)
Theorem addMember_invite_failure dto groupName member (st : State) reason :
  isGroupMember groupName member st = (inr false, st) →
  redeemInvite (AddMemberDto.inviteCode dto) groupName (invitesService st) = inl reason →
  addMember dto groupName member st = (inl (InviteError reason), st).
Proof.
  intros Hcheck Hinv. unfold addMember, mbind, M_bind. rewrite Hcheck.
  unfold invitesService_redeemInvite. by rewrite Hinv.
Qed.

(** C3. When a member that the group does not have yet is added with a
    valid invite, the call returns, and adding the same member again,
    with whatever invite, throws "already exists" and changes nothing:
    the membership test comes before every mutation. *)
Theorem addMember_twice dto groupName member (st : State) tree leaf inv row :
  cachedGroups st !! groupName = Some tree →
  BigInt member = Some leaf →
  leaf ∉ cg_members tree →
  (Z.of_nat (length (cg_members tree)) < capacity tree)%Z →
  redeemInvite (AddMemberDto.inviteCode dto) groupName (invitesService st) = inr inv →
  findRow groupName (groupRepository st) = Some row →
  ∃ group st1,
    addMember dto groupName member st = (inr group, st1)
    ∧ ∀ dto2, addMember dto2 groupName member st1
              = (inl (alreadyExists groupName member), st1).
Proof.
  intros Hget Hleaf Hnot Hroom Hinv Hrow.
  destruct (addMember_succeeds dto groupName member st tree leaf inv row)
    as [st1 Hrun]; try done.
  exists (pushMember row member), st1. split; [done|]. intros dto2.
  destruct (addMember_returns _ _ _ _ _ _ Hrun)
    as (tree0 & leaf0 & _ & _ & tree' & Hget0 & Hleaf0 & _ & _ & _ & Hins & _ & _ &
        Hcache & _).
  apply insert_inv in Hins as [_ ->].
  eapply (addMember_member dto2 groupName member st1 _ leaf0).
  - rewrite Hcache. apply lookup_insert_eq.
  - done.
  - cbn. apply elem_of_app. right. by apply list_elem_of_singleton.
Qed.


(** [addMember] registers no timeout, whatever its outcome. *)
Lemma addMember_schedules_nothing dto groupName member (st st' : State) r :
  addMember dto groupName member st = (r, st') →
  schedulerRegistry st' = schedulerRegistry st.
Proof.
  destruct r as [e|group]; intros Hrun.
  - revert Hrun. unfold addMember, isGroupMember, cachedGroups_get,
      invitesService_redeemInvite, getGroup, Repository_findOneBy, Repository_update,
      liftE, throw, gets, modify, mbind, M_bind, mret, M_ret.
    destruct (cachedGroups st !! groupName) eqn:Hget; [|by intros [= _ <-]].
    destruct (BigInt member); [|by intros [= _ <-]].
    destruct (negb _); [by intros [= _ <-]|].
    destruct (redeemInvite _ _ _); [by intros [= _ <-]|]. cbn.
    destruct (findRow _ _); [|by intros [= _ <-]]. cbn. rewrite Hget. cbn.
    destruct (CachedGroup_addMember _ _); [by intros [= _ <-]|].
    by destruct (length (schedulerRegistry st) =? 0)%nat.
  - by destruct (addMember_returns _ _ _ _ _ _ Hrun)
      as (? & ? & ? & ? & ? & _ & _ & _ & _ & _ & _ & _ & _ & _ & _ & _ & ? & _).
Qed.

(** When the tree is full, [addMember] throws after the record has been
    saved with the new member. *)
Lemma addMember_full dto groupName member (st : State) tree leaf inv row :
  cachedGroups st !! groupName = Some tree →
  BigInt member = Some leaf →
  leaf ∉ cg_members tree →
  (capacity tree <= Z.of_nat (length (cg_members tree)))%Z →
  redeemInvite (AddMemberDto.inviteCode dto) groupName (invitesService st) = inr inv →
  findRow groupName (groupRepository st) = Some row →
  ∃ st', addMember dto groupName member st = (inl (TreeError "The tree is full"), st')
         ∧ groupRepository st' = updateRow (pushMember row member) (groupRepository st)
         ∧ cachedGroups st' = cachedGroups st.
Proof.
  intros Hget Hleaf Hnot Hfull Hinv Hrow. unfold addMember, mbind, M_bind.
  rewrite (isGroupMember_known _ _ _ _ _ Hget Hleaf).
  rewrite bool_decide_eq_false_2 by done.
  unfold invitesService_redeemInvite. rewrite Hinv.
  unfold getGroup, Repository_findOneBy, gets, mbind, M_bind. cbn.
  rewrite Hrow. cbn. unfold cachedGroups_get. cbn. rewrite Hget.
  unfold liftE, CachedGroup_addMember. rewrite Hleaf, (insert_full _ _ Hfull).
  by eexists.
Qed.

(** With a timeout in the registry, the end of [addMember] leaves the
    ledger alone. *)
Lemma addMember_trigger_noop dto groupName member (st st' : State) group :
  addMember dto groupName member st = (inr group, st') →
  schedulerRegistry st ≠ [] →
  ledger st' = ledger st ∧ pending st' = pending st.
Proof.
  intros Hrun Hne.
  destruct (addMember_returns _ _ _ _ _ _ Hrun)
    as (? & ? & ? & ? & ? & _ & _ & _ & _ & _ & _ & _ & _ & _ & _ & _ & _ & -> & ->).
  by destruct (schedulerRegistry st).
Qed.

(** C7, on the code: with no timeout in the registry, [addMember] does
    not schedule the contract update but starts it; when the call
    returns the whole queue has already been handed to the ledger client,
    an update is in flight, and the registry is as empty as before. *)
Theorem addMember_flushes_at_once dto groupName member (st st' : State) group :
  addMember dto groupName member st = (inr group, st') →
  schedulerRegistry st = [] →
  ledger st' = ledger st ++ [updatedGroups st']
  ∧ pending st' = S (pending st)
  ∧ schedulerRegistry st' = [].
Proof.
  intros Hrun Hnone.
  destruct (addMember_returns _ _ _ _ _ _ Hrun)
    as (? & ? & ? & ? & ? & _ & _ & _ & _ & _ & _ & _ & _ & _ & _ & _ & -> & -> & ->).
  by rewrite Hnone.
Qed.

(** C10, on the code: for a name without a cached tree, the membership
    test and the proof generation both end in the TypeError of reading a
    property of [undefined]; no test of the looked-up tree precedes its
    use. *)
Theorem unknown_group_TypeError groupName member (st : State) :
  cachedGroups st !! groupName = None →
  isGroupMember groupName member st
  = (inl (TypeError "Cannot read properties of undefined"), st)
  ∧ generateMerkleProof groupName member st
    = (inl (TypeError "Cannot read properties of undefined"), st).
Proof.
  intros Hnone.
  unfold generateMerkleProof, isGroupMember, cachedGroups_get, mbind, M_bind.
  by rewrite Hnone.
Qed.
End AddMember.

(** ** Mutations and the mirror *)

Section Mutations.
Context `{Collaborators}.

Lemma updateRow_elem (group row : Group) (rows : list Group) :
  row ∈ rows → name row = name group → group ∈ updateRow group rows.
Proof.
  intros Hin Hname. unfold updateRow. apply list_elem_of_fmap.
  exists row. split; [|done]. by rewrite Hname, String.eqb_refl.
Qed.



(** C6 (amended). When the name is taken, [createGroup] throws what the
    store's [save] throws on the uniqueness of names, and the state is
    untouched; otherwise it returns the record it has persisted, whose
    member list is empty, and has registered a tree without leaves under
    the name. *)
Theorem createGroup_outcome dto admin' (st : State) :
  match findRow (CreateGroupDto.name dto) (groupRepository st) with
  | Some _ =>
      createGroup dto admin' st
      = (inl (QueryFailedError "UNIQUE constraint failed: groups.name"), st)
  | None =>
      ∃ st' tree,
        createGroup dto admin' st = (inr (newGroup dto admin'), st')
        ∧ members (newGroup dto admin') = []
        ∧ groupRepository st' = groupRepository st ++ [newGroup dto admin']
        ∧ cachedGroups st' = <[CreateGroupDto.name dto := tree]> (cachedGroups st)
        ∧ cg_members tree = []
  end.
Proof.
  destruct (findRow (CreateGroupDto.name dto) (groupRepository st)) as [row|] eqn:Hrow.
  - by eapply createGroup_taken.
  - destruct (createGroup_free dto admin' st Hrow) as (st' & Hrun & Hrows & Hcache & _).
    by eexists st', _.
Qed.
End Mutations.

(** ** The contract update *)

Section ContractUpdate.
Context `{Collaborators}.

Lemma updateContractGroups_resume_queue (tx : zkGroups.Tx) (st : State) :
  updatedGroups (updateContractGroups_resume tx st) = []
  ∧ ledger (updateContractGroups_resume tx st) = ledger st
  ∧ groupRepository (updateContractGroups_resume tx st) = groupRepository st
  ∧ cachedGroups (updateContractGroups_resume tx st) = cachedGroups st.
Proof. unfold updateContractGroups_resume. by destruct (zkGroups.status tx). Qed.

(** C8 (amended). Started on a queue that is not empty,
    [updateContractGroups] hands the whole queue to the ledger client as
    one batch and leaves the queue as it is; the queue is emptied when
    the run goes on after the submission, whatever it holds by then. *)
Theorem updateContractGroups_submits_then_clears (st : State) :
  updatedGroups st ≠ [] →
  ledger (updateContractGroups_call st) = ledger st ++ [updatedGroups st]
  ∧ updatedGroups (updateContractGroups_call st) = updatedGroups st
  ∧ ∀ tx (later : State), updatedGroups (updateContractGroups_resume tx later) = [].
Proof.
  intros Hne.
  destruct (updateContractGroups_call_ledger st Hne) as [-> _].
  destruct (updateContractGroups_call_frame st) as (_ & _ & -> & _).
  repeat (split; [done|]). intros tx later.
  apply updateContractGroups_resume_queue.
Qed.

(** C9. On an empty queue [updateContractGroups] does nothing.  On any
    other it submits the queue and ends with an empty queue, whatever the
    status of the transaction and whatever was queued in between; on a
    failed transaction it logs an error, and the entries it has submitted
    are not put back. *)
Theorem updateContractGroups_no_retry (tx : zkGroups.Tx) (st : State) :
  match updatedGroups st with
  | [] => updateContractGroups tx st = st
  | _ :: _ =>
      updatedGroups (updateContractGroups tx st) = []
      ∧ ledger (updateContractGroups tx st) = ledger st ++ [updatedGroups st]
      ∧ (if zkGroups.status tx then True
         else logger (updateContractGroups tx st)
              = logger st ++ [Error "GroupsService: failed to update contract groups"])
  end
  ∧ ∀ later : State, updatedGroups (updateContractGroups_resume tx later) = [].
Proof.
  split; [|intros later; apply updateContractGroups_resume_queue].
  unfold updateContractGroups.
  destruct (updatedGroups st) as [|entry queue] eqn:Hqueue; [done|].
  destruct (updateContractGroups_resume_queue tx (updateContractGroups_call st))
    as (-> & -> & _).
  destruct (updateContractGroups_call_ledger st) as [-> _]; [by rewrite Hqueue|].
  rewrite Hqueue. repeat (split; [done|]).
  unfold updateContractGroups_resume, updateContractGroups_call. rewrite Hqueue.
  by destruct (zkGroups.status tx).
Qed.
End ContractUpdate.

(** ** Updating a group *)

Section UpdateGroup.
Context `{Collaborators}.

Lemma findRow_updateRow_ne (group : Group) (other : string) (rows : list Group) :
  other ≠ name group →
  findRow other (updateRow group rows) = findRow other rows.
Proof.
  intros Hne. unfold findRow, updateRow.
  induction rows as [|g rest IH]; [done|]. cbn.
  destruct (String.eqb_spec (name g) (name group)) as [E|E].
  - destruct (String.eqb_spec (name group) other) as [E'|_]; [congruence|].
    destruct (String.eqb_spec (name g) other) as [E'|_]; [congruence|]. apply IH.
  - destruct (String.eqb_spec (name g) other); [done|]. apply IH.
Qed.

Lemma getGroup_run groupName (st : State) :
  getGroup groupName st =
    match findRow groupName (groupRepository st) with
    | Some row => (inr row, st)
    | None => (inl (doesNotExist groupName), st)
    end.
Proof.
  unfold getGroup, Repository_findOneBy, gets, throw, mbind, M_bind, mret, M_ret.
  by destruct (findRow groupName (groupRepository st)).
Qed.

Lemma updateGroup_run dto groupName admin' (st : State) :
  updateGroup dto groupName admin' st =
    match findRow groupName (groupRepository st) with
    | None => (inl (doesNotExist groupName), st)
    | Some row =>
        if String.eqb (admin row) admin'
        then (inr (editGroup row dto),
              Logger_log ("GroupsService: group '" +:+ name row +:+ "' has been updated")
                (set_groupRepository
                   (updateRow (editGroup row dto) (groupRepository st)) st))
        else (inl (notAdmin groupName), st)
    end.
Proof.
  unfold updateGroup, mbind, M_bind. rewrite getGroup_run.
  destruct (findRow groupName (groupRepository st)) as [row|]; [|done].
  by destruct (String.eqb (admin row) admin').
Qed.

(** X1. [updateGroup] by anyone but the admin of the group throws
    "You are not the admin" and changes nothing. *)
Theorem updateGroup_unauthorized dto groupName admin' (st : State) row :
  findRow groupName (groupRepository st) = Some row →
  admin row ≠ admin' →
  updateGroup dto groupName admin' st = (inl (notAdmin groupName), st).
Proof.
  intros Hrow Hne. rewrite updateGroup_run, Hrow.
  by destruct (String.eqb_spec (admin row) admin').
Qed.

(** X2. [updateGroup] by the admin returns the record with the new
    description, depth and tag and the old name, admin and members;
    [getGroup] returns that record afterwards, the other records are as
    before, and neither the cached trees, so not their depth either, nor
    the queue, the ledger or the invites have been touched. *)
Theorem updateGroup_by_admin dto groupName (st : State) row :
  findRow groupName (groupRepository st) = Some row →
  ∃ st',
    updateGroup dto groupName (admin row) st = (inr (editGroup row dto), st')
    ∧ getGroup groupName st' = (inr (editGroup row dto), st')
    ∧ (∀ other, other ≠ groupName →
         findRow other (groupRepository st') = findRow other (groupRepository st))
    ∧ cachedGroups st' = cachedGroups st
    ∧ updatedGroups st' = updatedGroups st
    ∧ ledger st' = ledger st
    ∧ invitesService st' = invitesService st.
Proof.
  intros Hrow. rewrite updateGroup_run, Hrow, String.eqb_refl.
  destruct (findRow_Some _ _ _ Hrow) as [_ Hname].
  eexists. split; [done|]. rewrite getGroup_run. cbn.
  assert (name (editGroup row dto) = groupName) as Hedit by done.
  split.
  - rewrite <- Hedit at 1. rewrite (findRow_updateRow _ row); [done|]. by rewrite Hedit.
  - split; [|done]. intros other Hne. apply findRow_updateRow_ne. by rewrite Hedit.
Qed.

(** X3. [updateGroup] keeps the mirror of store and cache, whatever its
    outcome, and leaves the cache as it is. *)
Theorem updateGroup_keeps_mirror dto groupName admin' (st st' : State) r :
  mirror st →
  updateGroup dto groupName admin' st = (r, st') →
  mirror st' ∧ cachedGroups st' = cachedGroups st.
Proof.
  intros Hm. rewrite updateGroup_run.
  destruct (findRow groupName (groupRepository st)) as [row|] eqn:Hrow;
    [|by intros [= _ <-]].
  destruct (String.eqb (admin row) admin'); [|by intros [= _ <-]].
  intros [= _ <-]. split; [|done].
  destruct (findRow_Some _ _ _ Hrow) as [Hin Hname].
  destruct (mirror_lookup st row Hm Hin) as (tree & Hget & Hmir).
  destruct Hm as (Hnd & Hall & Hdom).
  unfold mirror. cbn. rewrite updateRow_names. split; [done|]. split; [|done].
  unfold updateRow. rewrite Forall_fmap, Forall_forall in *.
  intros g Hg. specialize (Hall g Hg). cbn.
  destruct (String.eqb_spec (name g) (name row)) as [E|E]; [|done].
  cbn. by rewrite Hget.
Qed.
End UpdateGroup.

(** ** What every request keeps *)

Section Requests.
Context `{Collaborators}.

(** A request leaves the cache alone, registers a new tree without
    leaves, or puts one new leaf into one tree. *)
Lemma handle_cache (r : Request) (st : State) :
  cachedGroups (handle r st) = cachedGroups st
  ∨ (∃ groupName i,
       cachedGroups (handle r st)
       = <[groupName := CachedGroup_new i None]> (cachedGroups st))
  ∨ (∃ groupName tree leaf tree',
       cachedGroups st !! groupName = Some tree
       ∧ (leaf ∉ cg_members tree)
       ∧ insert tree leaf = inr tree'
       ∧ cachedGroups (handle r st) = <[groupName := tree']> (cachedGroups st)).
Proof.
  destruct r as [dto a|dto groupName a|dto groupName member| |tx]; cbn.
  - destruct (findRow (CreateGroupDto.name dto) (groupRepository st)) as [row|] eqn:Hrow.
    + rewrite (createGroup_taken _ _ _ _ Hrow). by left.
    + destruct (createGroup_free dto a st Hrow) as (st' & -> & _ & Hcache & _).
      right. left. eauto.
  - rewrite updateGroup_run.
    destruct (findRow groupName (groupRepository st)) as [row|]; [|by left].
    destruct (String.eqb (admin row) a); by left.
  - destruct (addMember dto groupName member st) as [[e|group] st'] eqn:Hrun; cbn.
    + destruct (addMember_throws _ _ _ _ _ _ Hrun) as (Hcache & _). by left.
    + destruct (addMember_returns _ _ _ _ _ _ Hrun)
        as (tree & leaf & _ & _ & tree' & Hget & _ & Hnot & _ & _ & Hins & _ & _ &
            Hcache & _).
      right. right. exists groupName, tree, leaf, tree'. done.
  - left. by destruct (updateContractGroups_call_frame st) as (_ & -> & _).
  - left. destruct (pending st); [done|].
    by destruct (updateContractGroups_resume_queue tx st) as (_ & _ & _ & ->).
Qed.

(** A request leaves the ledger alone or hands it one batch, not empty. *)
Lemma handle_ledger (r : Request) (st : State) :
  ledger (handle r st) = ledger st
  ∨ ∃ batch, batch ≠ [] ∧ ledger (handle r st) = ledger st ++ [batch].
Proof.
  destruct r as [dto a|dto groupName a|dto groupName member| |tx]; cbn.
  - destruct (findRow (CreateGroupDto.name dto) (groupRepository st)) as [row|] eqn:Hrow.
    + rewrite (createGroup_taken _ _ _ _ Hrow). by left.
    + destruct (createGroup_free dto a st Hrow) as (st' & -> & _ & _ & _ & Hledger & _).
      by left.
  - rewrite updateGroup_run.
    destruct (findRow groupName (groupRepository st)) as [row|]; [|by left].
    destruct (String.eqb (admin row) a); by left.
  - destruct (addMember dto groupName member st) as [[e|group] st'] eqn:Hrun; cbn.
    + destruct (addMember_throws _ _ _ _ _ _ Hrun) as (_ & _ & Hledger & _). by left.
    + destruct (addMember_returns _ _ _ _ _ _ Hrun)
        as (? & ? & ? & ? & ? & _ & _ & _ & _ & _ & _ & _ & _ & _ & Hqueue & _ & _ &
            Hledger & _).
      destruct (length (schedulerRegistry st) =? 0)%nat; [|by left].
      right. exists (updatedGroups st'). split; [|done].
      rewrite Hqueue. by destruct (updatedGroups st).
  - destruct (updatedGroups st) as [|entry queue] eqn:Hqueue.
    + left. unfold updateContractGroups_call. by rewrite Hqueue.
    + right. exists (updatedGroups st). rewrite Hqueue at 1. split; [done|].
      apply updateContractGroups_call_ledger. by rewrite Hqueue.
  - left. destruct (pending st); [done|].
    by destruct (updateContractGroups_resume_queue tx st) as (_ & -> & _).
Qed.

(** X4. Whatever the request and its outcome, no cached tree ends up with
    more leaves than [2 ^ depth]. *)
Theorem withinCapacity_kept (r : Request) (st : State) :
  withinCapacity st → withinCapacity (handle r st).
Proof.
  unfold withinCapacity. intros Hcap.
  destruct (handle_cache r st)
    as [->|[(groupName & i & ->)|(groupName & tree & leaf & tree' & Hget & _ & Hins & ->)]].
  - done.
  - apply map_Forall_insert_2; [|done]. unfold capacity. cbn.
    apply Z.pow_nonneg. lia.
  - apply map_Forall_insert_2; [|done].
    apply insert_inv in Hins as [Hroom ->]. unfold capacity in *. cbn.
    rewrite length_app. cbn. lia.
Qed.


(** X6. The ledger only grows, by one batch at a time, and no request
    hands the ledger client an empty batch. *)
Theorem ledger_grows (r : Request) (st : State) :
  nonEmptyBatches st →
  ledger st `prefix_of` ledger (handle r st)
  ∧ (length (ledger (handle r st)) ≤ S (length (ledger st)))%nat
  ∧ nonEmptyBatches (handle r st).
Proof.
  unfold nonEmptyBatches. intros Hne.
  destruct (handle_ledger r st) as [->|(batch & Hbatch & ->)].
  - split; [done|]. split; [lia|done].
  - split; [by apply prefix_app_r|]. rewrite length_app. cbn. split; [lia|].
    apply Forall_app. split; [done|]. by constructor.
Qed.
End Requests.

(** ** Queries against the cache *)

Section Queries.
Context `{Collaborators}.

Lemma addMembers_withinCapacity (ms : list string) :
  ∀ tree tree',
    (Z.of_nat (length (cg_members tree)) <= capacity tree)%Z →
    CachedGroup_addMembers tree ms = inr tree' →
    (Z.of_nat (length (cg_members tree')) <= capacity tree')%Z.
Proof.
  induction ms as [|m rest IH]; intros tree tree' Hcap; cbn.
  - by intros [= <-].
  - unfold CachedGroup_addMember. destruct (BigInt m) as [leaf|]; [|done].
    destruct (insert tree leaf) as [|tree1] eqn:Hins; [done|].
    apply IH. apply insert_inv in Hins as [Hroom ->].
    unfold capacity in *. cbn. rewrite length_app. cbn. lia.
Qed.

Lemma cacheGroups_withinCapacity (groups : list Group) :
  ∀ st : State, withinCapacity st → withinCapacity (snd (cacheGroups groups st)).
Proof.
  induction groups as [|g rest IH]; intros st Hcap; cbn; [done|].
  unfold mbind, M_bind. rewrite cacheGroup_run.
  destruct (rebuilt g) as [|tree] eqn:Hb; [done|].
  apply IH. unfold withinCapacity. cbn. apply map_Forall_insert_2; [|done].
  unfold rebuilt in Hb. rewrite <- addMembers_insertInOrder in Hb.
  eapply addMembers_withinCapacity; [|exact Hb].
  unfold capacity. cbn. apply Z.pow_nonneg. lia.
Qed.

(** X7. Whatever rows the store holds, and whether or not the constructor
    gets through all of them, no tree it has cached holds more leaves than
    [2 ^ depth]. *)
Theorem constructor_withinCapacity rows inv timeouts :
  withinCapacity (snd (constructor rows inv timeouts)).
Proof.
  unfold constructor, bootstrap, getAllGroups, Repository_find, gets, modify,
    mbind, M_bind. cbn.
  pose proof (cacheGroups_withinCapacity rows (fresh rows inv timeouts)) as Hcap.
  destruct (cacheGroups rows (fresh rows inv timeouts)) as [[e|[]] st]; cbn in *.
  - apply Hcap. apply map_Forall_empty.
  - apply Hcap. apply map_Forall_empty.
Qed.

(** X8. For a cached group within its capacity and a member that reads as
    an integer, [generateMerkleProof] returns a proof exactly when that
    integer is among the leaves, and the proof then carries the leaf and
    the root of the tree and recomputes to that root; otherwise it throws
    "does not exist in the group".  The state is untouched either way. *)
Theorem generateMerkleProof_outcome groupName member (st : State) tree leaf :
  withinCapacity st →
  cachedGroups st !! groupName = Some tree →
  BigInt member = Some leaf →
  if decide (leaf ∈ cg_members tree)
  then ∃ proof,
         generateMerkleProof groupName member st = (inr proof, st)
         ∧ mp_leaf proof = leaf
         ∧ mp_root proof = root tree
         ∧ recomputedRoot proof = root tree
  else generateMerkleProof groupName member st = (inl (notAMember groupName member), st).
Proof.
  intros Hcap Hget Hleaf. specialize (Hcap groupName tree Hget). cbn in Hcap.
  unfold generateMerkleProof, mbind, M_bind.
  rewrite (isGroupMember_known _ _ _ _ _ Hget Hleaf).
  destruct (decide (leaf ∈ cg_members tree)) as [Hin|Hnot].
  - rewrite bool_decide_eq_true_2 by done. cbn.
    unfold cachedGroups_get. rewrite Hget, Hleaf. unfold liftE.
    destruct (generateMerkleProof_member tree leaf Hcap Hin)
      as (proof & -> & Hl & Hr & Hre).
    by exists proof.
  - by rewrite bool_decide_eq_false_2.
Qed.

(** X9. A group that has just been created has no member: the membership
    test answers false and the proof generation throws, for every member. *)
Theorem createGroup_no_members dto admin' member (st st' : State) group leaf :
  createGroup dto admin' st = (inr group, st') →
  BigInt member = Some leaf →
  isGroupMember (CreateGroupDto.name dto) member st' = (inr false, st')
  ∧ generateMerkleProof (CreateGroupDto.name dto) member st'
    = (inl (notAMember (CreateGroupDto.name dto) member), st').
Proof.
  intros Hrun Hleaf.
  destruct (findRow (CreateGroupDto.name dto) (groupRepository st)) as [row|] eqn:Hrow.
  { rewrite (createGroup_taken _ _ _ _ Hrow) in Hrun. congruence. }
  destruct (createGroup_free dto admin' st Hrow) as (st1 & Hrun1 & _ & Hcache & _).
  rewrite Hrun in Hrun1. injection Hrun1 as -> <-.
  assert (cachedGroups st' !! CreateGroupDto.name dto
          = Some (CachedGroup_new (Z.of_nat (CreateGroupDto.treeDepth dto)) None)) as Hget
    by (rewrite Hcache; apply lookup_insert_eq).
  assert (isGroupMember (CreateGroupDto.name dto) member st' = (inr false, st')) as Hmem.
  { rewrite (isGroupMember_known _ _ _ _ _ Hget Hleaf).
    rewrite bool_decide_eq_false_2; [done|]. cbn. apply not_elem_of_nil. }
  split; [done|]. unfold generateMerkleProof, mbind, M_bind. by rewrite Hmem.
Qed.

Lemma mirrors_fmap (group : Group) (tree : CachedGroup) :
  mirrors group tree → BigInt <$> members group = Some <$> cg_members tree.
Proof.
  unfold mirrors. induction 1 as [|m leaf ms leaves Hm _ IH]; [done|].
  cbn. by rewrite Hm, IH.
Qed.

(** X10. While the cache mirrors the store, the membership test answers
    from the persisted record: a member is reported exactly when one of
    the record's members reads as the same integer. *)
Theorem isGroupMember_of_record (st : State) row member leaf :
  mirror st →
  row ∈ groupRepository st →
  BigInt member = Some leaf →
  isGroupMember (name row) member st
  = (inr (bool_decide (Some leaf ∈ BigInt <$> members row)), st).
Proof.
  intros Hm Hin Hleaf.
  destruct (mirror_lookup st row Hm Hin) as (tree & Hget & Hmir).
  rewrite (isGroupMember_known _ _ _ _ _ Hget Hleaf). do 2 f_equal.
  rewrite (mirrors_fmap _ _ Hmir). apply bool_decide_ext.
  rewrite list_elem_of_fmap. split.
  - intros Hl. by exists leaf.
  - by intros (l & [= ->] & Hl).
Qed.

(** X11. While the cache mirrors the store, the store and the cache know
    the same groups: [getGroup] returns for a name exactly when
    [isGroupMember] does. *)
Theorem known_groups_agree (st : State) groupName member leaf :
  mirror st →
  BigInt member = Some leaf →
  (∃ group, getGroup groupName st = (inr group, st))
  ↔ (∃ answer, isGroupMember groupName member st = (inr answer, st)).
Proof.
  intros Hm Hleaf. rewrite getGroup_run. split.
  - intros [group Hrun].
    destruct (findRow groupName (groupRepository st)) as [row|] eqn:Hrow; [|done].
    destruct (findRow_Some _ _ _ Hrow) as [Hin <-].
    destruct (mirror_lookup st row Hm Hin) as (tree & Hget & _).
    rewrite (isGroupMember_known _ _ _ _ _ Hget Hleaf). eauto.
  - intros [answer Hrun].
    destruct (cachedGroups st !! groupName) as [tree|] eqn:Hget.
    + destruct Hm as (_ & _ & Hdom). specialize (Hdom groupName tree Hget). cbn in Hdom.
      destruct (findRow groupName (groupRepository st)) as [row|] eqn:Hrow; [eauto|].
      by apply findRow_None in Hrow.
    + unfold isGroupMember, cachedGroups_get, mbind, M_bind in Hrun.
      rewrite Hget in Hrun. congruence.
Qed.
End Queries.

(** ** Restarts *)

Section Restarts.
Context `{Collaborators}.


Lemma cacheGroups_app (before after : list Group) :
  ∀ st : State,
    cacheGroups (before ++ after) st =
      match cacheGroups before st with
      | (inl e, st') => (inl e, st')
      | (inr _, st') => cacheGroups after st'
      end.
Proof.
  induction before as [|g rest IH]; intros st; cbn; [done|].
  unfold mbind, M_bind. destruct (cacheGroup g st) as [[e|[]] st1]; [done|]. apply IH.
Qed.

Lemma cacheGroups_all (groups : list Group) :
  ∀ st : State,
    (∀ group, group ∈ groups → ∃ tree, rebuilt group = inr tree) →
    ∃ st', cacheGroups groups st = (inr tt, st') ∧ logger st' = logger st.
Proof.
  induction groups as [|g rest IH]; intros st Hall; cbn; [by eexists|].
  unfold mbind, M_bind. rewrite cacheGroup_run.
  destruct (Hall g) as [tree ->]; [by left|].
  destruct (IH (set_cachedGroups (<[name g:=tree]> (cachedGroups st)) st))
    as (st' & -> & Hlog).
  - intros group Hin. apply Hall. by right.
  - by exists st'.
Qed.

End Restarts.

(** ** Listing groups *)

Section Listing.
Context `{Collaborators}.

Lemma findRow_app (groupName : string) (rows more : list Group) :
  findRow groupName (rows ++ more) =
    match findRow groupName rows with
    | Some row => Some row
    | None => findRow groupName more
    end.
Proof.
  unfold findRow. induction rows as [|g rest IH]; [done|]. cbn.
  by destruct (String.eqb (name g) groupName).
Qed.


Lemma NoDup_names_eq (rows : list Group) (x y : Group) :
  NoDup (name <$> rows) → x ∈ rows → y ∈ rows → name x = name y → x = y.
Proof.
  induction rows as [|g rest IH]; intros Hnd Hx Hy Hname.
  - by apply elem_of_nil in Hx.
  - rewrite fmap_cons in Hnd. apply NoDup_cons in Hnd as [Hfresh Hnd].
    apply elem_of_cons in Hx as [->|Hx]; apply elem_of_cons in Hy as [->|Hy].
    + done.
    + exfalso. apply Hfresh. rewrite Hname. apply list_elem_of_fmap. eauto.
    + exfalso. apply Hfresh. rewrite <- Hname. apply list_elem_of_fmap. eauto.
    + by apply IH.
Qed.

Lemma filter_updateRow_names (group : Group) (admin' : string) (rows : list Group) :
  (∀ x, x ∈ rows → name x = name group → admin x = admin group) →
  name <$> filter (λ g, admin g = admin') (updateRow group rows)
  = name <$> filter (λ g, admin g = admin') rows.
Proof.
  unfold updateRow. induction rows as [|g rest IH]; intros Hsame; [done|].
  rewrite fmap_cons.
  assert (name <$> filter (λ g0, admin g0 = admin')
            ((λ g0, if String.eqb (name g0) (name group) then group else g0) <$> rest)
          = name <$> filter (λ g0, admin g0 = admin') rest) as IH'.
  { apply IH. intros x Hx. apply Hsame. by right. }
  destruct (String.eqb_spec (name g) (name group)) as [E|E].
  - assert (admin g = admin group) as Hadm by (apply Hsame; [by left|done]).
    destruct (decide (admin g = admin')) as [Ha|Ha].
    + rewrite !filter_cons_True by congruence. rewrite !fmap_cons. congruence.
    + rewrite !filter_cons_False by congruence. done.
  - destruct (decide (admin g = admin')) as [Ha|Ha].
    + rewrite !filter_cons_True by done. rewrite !fmap_cons. congruence.
    + rewrite !filter_cons_False by done. done.
Qed.

(** What [addMember] does to the rows, whatever its outcome: nothing, or
    the member pushed onto the record of the group. *)
Lemma addMember_rows dto groupName member (st st' : State) r :
  addMember dto groupName member st = (r, st') →
  groupRepository st' = groupRepository st
  ∨ ∃ row, findRow groupName (groupRepository st) = Some row
           ∧ groupRepository st' = updateRow (pushMember row member) (groupRepository st).
Proof.
  destruct r as [e|group]; intros Hrun.
  - revert Hrun. unfold addMember, isGroupMember, cachedGroups_get,
      invitesService_redeemInvite, getGroup, Repository_findOneBy, Repository_update,
      liftE, throw, gets, modify, mbind, M_bind, mret, M_ret.
    destruct (cachedGroups st !! groupName) eqn:Hget; [|intros [= _ <-]; by left].
    destruct (BigInt member); [|intros [= _ <-]; by left].
    destruct (negb _); [intros [= _ <-]; by left|].
    destruct (redeemInvite _ _ _); [intros [= _ <-]; by left|]. cbn.
    destruct (findRow groupName (groupRepository st)) as [row|] eqn:Hrow;
      [|intros [= _ <-]; by left].
    cbn. rewrite Hget. cbn.
    destruct (CachedGroup_addMember _ _).
    + intros [= _ <-]. right. by exists row.
    + destruct (length (schedulerRegistry st) =? 0)%nat; cbn; congruence.
  - destruct (addMember_returns _ _ _ _ _ _ Hrun)
      as (? & ? & ? & row & ? & _ & _ & _ & _ & Hrow & _ & -> & -> & _).
    right. by exists row.
Qed.

End Listing.

(** ** More on adding a member *)

Section AddMemberMore.
Context `{Collaborators}.

(** X16. The record that [addMember] returns is the persisted one:
    [getGroup] returns it afterwards, and it is the record that [getGroup]
    returned before with the member put last and nothing else changed. *)
Theorem addMember_then_getGroup dto groupName member (st st' : State) group :
  addMember dto groupName member st = (inr group, st') →
  getGroup groupName st' = (inr group, st')
  ∧ ∃ row, getGroup groupName st = (inr row, st) ∧ group = pushMember row member.
Proof.
  intros Hrun.
  destruct (addMember_returns _ _ _ _ _ _ Hrun)
    as (? & ? & ? & row & ? & _ & _ & _ & _ & Hrow & _ & -> & Hrows & _).
  destruct (findRow_Some _ _ _ Hrow) as [_ Hname].
  rewrite !getGroup_run, Hrows, Hrow. split; [|by exists row].
  assert (name (pushMember row member) = groupName) as Hpush by done.
  rewrite <- Hpush at 1. rewrite (findRow_updateRow _ row); [done|]. by rewrite Hpush.
Qed.


(** X18. While the cache mirrors the store, an [addMember] that throws
    anything but the tree's "The tree is full" has changed nothing at all:
    no record, no tree, no queue entry, no log line, and the invite has
    not been consumed. *)
Theorem addMember_throws_untouched dto groupName member (st st' : State) e :
  mirror st →
  addMember dto groupName member st = (inl e, st') →
  e ≠ TreeError "The tree is full" →
  st' = st.
Proof.
  intros (_ & _ & Hdom) Hrun Hne. revert Hrun.
  unfold addMember, isGroupMember, cachedGroups_get,
    invitesService_redeemInvite, getGroup, Repository_findOneBy, Repository_update,
    liftE, throw, gets, modify, mbind, M_bind, mret, M_ret.
  destruct (cachedGroups st !! groupName) as [tree|] eqn:Hget; [|by intros [= _ <-]].
  destruct (BigInt member) as [leaf|] eqn:Hleaf; [|by intros [= _ <-]].
  destruct (negb _); [by intros [= _ <-]|].
  destruct (redeemInvite _ _ _); [by intros [= _ <-]|]. cbn.
  destruct (findRow groupName (groupRepository st)) as [row|] eqn:Hrow.
  - cbn. rewrite Hget. cbn. unfold CachedGroup_addMember. rewrite Hleaf.
    destruct (insert tree leaf) as [e'|tree'] eqn:Hins.
    + intros [= <- _]. exfalso. apply Hne.
      unfold insert in Hins. by destruct (_ <? _)%Z; simplify_eq.
    + destruct (length (schedulerRegistry st) =? 0)%nat; cbn; congruence.
  - exfalso. apply findRow_None in Hrow. apply Hrow.
    apply (Hdom groupName tree Hget).
Qed.
End AddMemberMore.

(** ** More on construction and on the contract update *)

Section More.
Context `{Collaborators}.

Lemma addMembers_returns_iff (ms : list string) :
  ∀ tree,
    (∃ tree', CachedGroup_addMembers tree ms = inr tree')
    ↔ Forall (λ m, is_Some (BigInt m)) ms
      ∧ (ms = [] ∨ (Z.of_nat (length (cg_members tree) + length ms) <= capacity tree)%Z).
Proof.
  induction ms as [|m rest IH]; intros tree; cbn.
  - split; [intros _; split; [constructor|by left]|eauto].
  - unfold CachedGroup_addMember. split.
    + intros [tree' Hrun].
      destruct (BigInt m) as [leaf|] eqn:Hleaf; [|done].
      destruct (insert tree leaf) as [|tree1] eqn:Hins; [done|].
      apply insert_inv in Hins as [Hroom ->].
      destruct (proj1 (IH _) (ex_intro _ tree' Hrun)) as [Hall Hfit].
      split; [constructor; [by rewrite Hleaf|done]|]. right.
      unfold capacity in *. cbn in Hfit. rewrite length_app in Hfit. cbn in Hfit.
      destruct Hfit as [->|Hfit]; cbn; lia.
    + intros [Hall [Hnil|Hfit]]; [done|].
      apply Forall_cons in Hall as [[leaf Hleaf] Hall]. rewrite Hleaf.
      unfold insert.
      destruct (Z.ltb_spec (Z.of_nat (length (cg_members tree))) (capacity tree)); [|lia].
      apply IH. split; [done|]. unfold capacity in *. cbn. rewrite length_app. cbn.
      destruct rest; [by left|right]. cbn in *. lia.
Qed.

Lemma rebuilt_returns_iff (group : Group) :
  (∃ tree, rebuilt group = inr tree) ↔ rebuildable group.
Proof.
  unfold rebuilt, rebuildable.
  rewrite <- addMembers_insertInOrder, addMembers_returns_iff, capacity_nat.
  cbn -[Nat.pow Z.of_nat].
  split; intros [Hall Hfit]; (split; [done|]).
  - destruct Hfit as [->|Hfit]; [|lia]. cbn -[Nat.pow].
    pose proof (Nat.pow_nonzero 2 (treeDepth group)). lia.
  - right. lia.
Qed.

Lemma cacheGroups_returns_all (groups : list Group) :
  ∀ st st' : State,
    cacheGroups groups st = (inr tt, st') →
    ∀ group, group ∈ groups → ∃ tree, rebuilt group = inr tree.
Proof.
  induction groups as [|g rest IH]; intros st st' Hrun group Hin.
  - by apply elem_of_nil in Hin.
  - cbn in Hrun. unfold mbind, M_bind in Hrun. rewrite cacheGroup_run in Hrun.
    destruct (rebuilt g) as [|tree] eqn:Hb; [done|].
    apply elem_of_cons in Hin as [->|Hin]; [eauto|]. by eapply IH.
Qed.


(** X20. A run of [updateContractGroups] leaves nothing for a run that
    follows it at once: the second run submits no batch and changes
    nothing, whatever the two transactions report. *)
Theorem updateContractGroups_twice (tx tx' : zkGroups.Tx) (st : State) :
  updateContractGroups tx' (updateContractGroups tx st) = updateContractGroups tx st.
Proof.
  unfold updateContractGroups at 1.
  replace (updatedGroups (updateContractGroups tx st)) with (@nil zkGroups.Group); [done|].
  unfold updateContractGroups.
  destruct (updatedGroups st) as [|entry queue] eqn:Hqueue; [done|].
  by destruct (updateContractGroups_resume_queue tx (updateContractGroups_call st)) as [-> _].
Qed.
End More.

(** ** The sample deployment, run *)

Import Sample.

Ltac decided := apply (bool_decide_unpack _); vm_compute; exact I.



Lemma addMember_invite_failure_witness :
  addMember (invite "none") "voters" "11" (created [])
  = (inl (InviteError "Invite code 'none' is not valid"), created []).
Proof.
  apply (addMember_invite_failure (invite "none") "voters" "11" (created [])).
  - by vm_compute.
  - by vm_compute.
Defined.

Lemma addMember_twice_witness :
  ∃ group st1,
    addMember (invite "i1") "voters" "11" (created []) = (inr group, st1)
    ∧ ∀ dto2, addMember dto2 "voters" "11" st1 = (inl (alreadyExists "voters" "11"), st1).
Proof.
  apply (addMember_twice (invite "i1") "voters" "11" (created [])
           {| cg_id := 1; cg_depth := 20; cg_members := [] |} 11%Z
           [("i2", "voters"); ("i3", "voters"); ("i4", "voters"); ("i5", "voters")]
           (votersRecord [])).
  - by vm_compute.
  - by vm_compute.
  - decided.
  - by vm_compute.
  - by vm_compute.
  - by vm_compute.
Defined.



(** C6, as stated, fails: creating ["voters"] a second time throws the
    error of the store, which is not one of the service's own
    "already exists" errors; and the tree registered at the first creation
    has depth 20 for a record of depth 1. *)
Lemma createGroup_taken_is_store_error :
  createGroup voters "bob" (created [])
  = (inl (QueryFailedError "UNIQUE constraint failed: groups.name"), created [])
  ∧ (∀ message,
       fst (createGroup voters "bob" (created [])) ≠ inl (BadRequestException message))
  ∧ createGroup voters "alice" (st0 []) = (inr (votersRecord []), created [])
  ∧ (cg_depth <$> cachedGroups (created []) !! "voters") = Some 20%nat
  ∧ treeDepth (votersRecord []) = 1%nat.
Proof.
  split; [by vm_compute|]. split; [|by vm_compute].
  intros message Heq. vm_compute in Heq. discriminate Heq.
Qed.

Lemma addMember_flushes_at_once_witness :
  ledger (joined1 []) = ledger (created []) ++ [updatedGroups (joined1 [])]
  ∧ pending (joined1 []) = S (pending (created []))
  ∧ schedulerRegistry (joined1 []) = [].
Proof.
  apply (addMember_flushes_at_once (invite "i1") "voters" "11" (created []) (joined1 [])
           (votersRecord ["11"])).
  - by vm_compute.
  - by vm_compute.
Defined.

(** C8, as stated, fails: the queue is still whole when the batch is
    submitted, and the entry queued while the transaction is in flight is
    gone once the run goes on; it was in no batch. *)
Lemma updateContractGroups_drops_late_entry :
  updatedGroups (joined1 ["timeout"]) ≠ []
  ∧ updatedGroups submitted = updatedGroups (joined1 ["timeout"])
  ∧ ledger submitted = [updatedGroups (joined1 ["timeout"])]
  ∧ length (updatedGroups meanwhile) = 2%nat
  ∧ updatedGroups afterwards = []
  ∧ ledger afterwards = [updatedGroups (joined1 ["timeout"])].
Proof. by vm_compute. Qed.

Lemma updateContractGroups_submits_then_clears_witness :
  ledger submitted = ledger (joined1 ["timeout"]) ++ [updatedGroups (joined1 ["timeout"])]
  ∧ updatedGroups submitted = updatedGroups (joined1 ["timeout"])
  ∧ ∀ tx (later : State), updatedGroups (updateContractGroups_resume tx later) = [].
Proof.
  apply (updateContractGroups_submits_then_clears (joined1 ["timeout"])).
  by vm_compute.
Defined.

Lemma unknown_group_TypeError_witness :
  isGroupMember "nobody" "11" (created [])
  = (inl (TypeError "Cannot read properties of undefined"), created [])
  ∧ generateMerkleProof "nobody" "11" (created [])
    = (inl (TypeError "Cannot read properties of undefined"), created []).
Proof.
  apply (unknown_group_TypeError "nobody" "11" (created [])).
  by vm_compute.
Defined.

(** A failed transaction on the sample: the entry of 11 has been
    submitted, the queue is empty afterwards and the error is the last
    line of the log. *)
Example updateContractGroups_failed_sample :
  updatedGroups (updateContractGroups failed (joined1 ["timeout"])) = []
  ∧ ledger (updateContractGroups failed (joined1 ["timeout"]))
    = [updatedGroups (joined1 ["timeout"])]
  ∧ last (logger (updateContractGroups failed (joined1 ["timeout"])))
    = Some (Error "GroupsService: failed to update contract groups")
  ∧ updateContractGroups failed (created []) = created [].
Proof. by vm_compute. Qed.

(** The sample after a restart: the tree of ["voters"] comes back with
    another id, another depth and, for these hashes, another root than the
    one the running service had cached. *)
Example restart_changes_root_sample :
  (cg_id <$> cachedGroups (joined2 []) !! "voters") = Some 1%Z
  ∧ (cg_depth <$> cachedGroups (joined2 []) !! "voters") = Some 20%nat
  ∧ (cg_id <$> cachedGroups (full []) !! "voters") = Some (id "voters")
  ∧ (cg_depth <$> cachedGroups (full []) !! "voters") = Some 1%nat
  ∧ (root <$> cachedGroups (joined2 []) !! "voters")
    ≠ (root <$> cachedGroups (full []) !! "voters").
Proof. repeat (split; [by vm_compute|]). intros Heq. vm_compute in Heq. discriminate Heq. Qed.

(** Two members added while the registry is empty: two updates are in
    flight at once, and the entry of 11 has been submitted twice. *)
Example addMember_twice_flushes_twice_sample :
  pending (joined2 []) = 2%nat
  ∧ ledger (joined2 []) = [updatedGroups (joined1 []); updatedGroups (joined2 [])]
  ∧ updatedGroups (joined1 []) `prefix_of` updatedGroups (joined2 [])
  ∧ length (updatedGroups (joined1 [])) = 1%nat
  ∧ schedulerRegistry (joined2 []) = [].
Proof.
  repeat (split; [by vm_compute|]). split; [|by vm_compute].
  exists [ {| zkGroups.id := id "voters";
              zkGroups.fingerprint :=
                default 0%Z (root <$> cachedGroups (joined2 []) !! "voters") |} ].
  by vm_compute.
Qed.

(** ** More runs of the sample deployment *)

Lemma updateGroup_unauthorized_witness :
  updateGroup newDetails "voters" "bob" (created []) = (inl (notAdmin "voters"), created []).
Proof.
  apply (updateGroup_unauthorized newDetails "voters" "bob" (created []) (votersRecord [])).
  - by vm_compute.
  - decided.
Defined.

Lemma updateGroup_by_admin_witness :
  ∃ st',
    updateGroup newDetails "voters" (admin (votersRecord [])) (created [])
    = (inr (editGroup (votersRecord []) newDetails), st')
    ∧ getGroup "voters" st' = (inr (editGroup (votersRecord []) newDetails), st')
    ∧ (∀ other, other ≠ "voters" →
         findRow other (groupRepository st') = findRow other (groupRepository (created [])))
    ∧ cachedGroups st' = cachedGroups (created [])
    ∧ updatedGroups st' = updatedGroups (created [])
    ∧ ledger st' = ledger (created [])
    ∧ invitesService st' = invitesService (created []).
Proof.
  apply (updateGroup_by_admin newDetails "voters" (created []) (votersRecord [])).
  by vm_compute.
Defined.

Lemma updateGroup_keeps_mirror_witness :
  mirror edited ∧ cachedGroups edited = cachedGroups (created []).
Proof.
  apply (updateGroup_keeps_mirror newDetails "voters" "alice" (created []) edited
           (inr (editGroup (votersRecord []) newDetails))).
  - decided.
  - by vm_compute.
Defined.

Lemma withinCapacity_kept_witness :
  withinCapacity (handle (DoAddMember (invite "i3") "voters" "13") (full [])).
Proof.
  apply (withinCapacity_kept (DoAddMember (invite "i3") "voters" "13") (full [])).
  decided.
Defined.


Lemma ledger_grows_witness :
  ledger (joined1 ["timeout"]) `prefix_of` ledger (handle TimerFires (joined1 ["timeout"]))
  ∧ (length (ledger (handle TimerFires (joined1 ["timeout"])))
     ≤ S (length (ledger (joined1 ["timeout"]))))%nat
  ∧ nonEmptyBatches (handle TimerFires (joined1 ["timeout"])).
Proof.
  apply (ledger_grows TimerFires (joined1 ["timeout"])).
  decided.
Defined.

Lemma generateMerkleProof_outcome_witness :
  if decide (11%Z ∈ cg_members {| cg_id := 1; cg_depth := 20; cg_members := [11; 12]%Z |})
  then ∃ proof,
         generateMerkleProof "voters" "11" (joined2 []) = (inr proof, joined2 [])
         ∧ mp_leaf proof = 11%Z
         ∧ mp_root proof = root {| cg_id := 1; cg_depth := 20; cg_members := [11; 12]%Z |}
         ∧ recomputedRoot proof
           = root {| cg_id := 1; cg_depth := 20; cg_members := [11; 12]%Z |}
  else generateMerkleProof "voters" "11" (joined2 [])
       = (inl (notAMember "voters" "11"), joined2 []).
Proof.
  apply (generateMerkleProof_outcome "voters" "11" (joined2 [])
           {| cg_id := 1; cg_depth := 20; cg_members := [11; 12]%Z |} 11%Z).
  - decided.
  - by vm_compute.
  - by vm_compute.
Defined.

Lemma createGroup_no_members_witness :
  isGroupMember "voters" "11" (created []) = (inr false, created [])
  ∧ generateMerkleProof "voters" "11" (created [])
    = (inl (notAMember "voters" "11"), created []).
Proof.
  apply (createGroup_no_members voters "alice" "11" (st0 []) (created [])
           (votersRecord []) 11%Z).
  - by vm_compute.
  - by vm_compute.
Defined.

Lemma isGroupMember_of_record_witness :
  isGroupMember "voters" "12" (joined2 [])
  = (inr (bool_decide (Some 12%Z ∈ BigInt <$> ["11"; "12"])), joined2 []).
Proof.
  apply (isGroupMember_of_record (joined2 []) (votersRecord ["11"; "12"]) "12" 12%Z).
  - decided.
  - decided.
  - by vm_compute.
Defined.

Lemma known_groups_agree_witness :
  (∃ group, getGroup "voters" (created []) = (inr group, created []))
  ↔ (∃ answer, isGroupMember "voters" "11" (created []) = (inr answer, created [])).
Proof.
  apply (known_groups_agree (created []) "voters" "11" 11%Z).
  - decided.
  - by vm_compute.
Defined.





Lemma addMember_then_getGroup_witness :
  getGroup "voters" (joined1 []) = (inr (votersRecord ["11"]), joined1 [])
  ∧ ∃ row, getGroup "voters" (created []) = (inr row, created [])
           ∧ votersRecord ["11"] = pushMember row "11".
Proof.
  apply (addMember_then_getGroup (invite "i1") "voters" "11" (created []) (joined1 [])
           (votersRecord ["11"])).
  by vm_compute.
Defined.


Lemma addMember_throws_untouched_witness :
  snd (addMember (invite "none") "voters" "11" (created [])) = created [].
Proof.
  apply (addMember_throws_untouched (invite "none") "voters" "11" (created [])
           (snd (addMember (invite "none") "voters" "11" (created [])))
           (InviteError "Invite code 'none' is not valid")).
  - decided.
  - by vm_compute.
  - discriminate.
Defined.

(** On the sample: the restarted service has rebuilt ["voters"]; a store
    that holds the jury, three members for depth 1, is not rebuildable. *)
Example constructor_returns_iff_sample :
  fst (constructor [votersRecord ["11"; "12"]] [] []) = inr tt
  ∧ fst (constructor [votersRecord ["11"]; jury; board] [] [])
    = inl (TreeError "The tree is full").
Proof. by vm_compute. Qed.
